(** * asm.py: instruction encoding and label relocation

    A shallow embedding of the assembler in [src/asm.py]: the operand
    classes with their [make] methods, the addressing-mode selection,
    the instruction classes, the builder calls that fill the module-level
    lists [inses] and [labels], and the four phases of [assemble].

    Python exceptions are values of [exn]; a computation that may raise
    has type [res A].  Objects that are mutated in place and reachable
    from more than one place (labels) live in a store and are named by
    their index there. *)

From Stdlib Require Import ZArith Lia.
From stdpp Require Import base list strings.

Open Scope Z_scope.

(** ** Exceptions and the error monad *)

Inductive exn :=
| InvalidSize (size : Z) (at_ : nat) (* Exception('invalid size {} for instruction mov at #{}') *)
| UnboundLocalError                  (* local [mode] read before assignment *)
| StructError                        (* struct.error: argument out of range *)
| TypeError
| AttributeError
| IndexError
| KeyError
| NameError
| AssertionError.

Inductive res (A : Type) :=
| Ok (a : A)
| Err (e : exn).
Arguments Ok {A} a.
Arguments Err {A} e.

#[global] Instance res_bind : MBind res := λ A B k c,
  match c with
  | Ok a => k a
  | Err e => Err e
  end.

Definition is_ok {A} (r : res A) : bool :=
  match r with Ok _ => true | Err _ => false end.

Fixpoint mapM {A B} (f : A -> res B) (l : list A) : res (list B) :=
  match l with
  | [] => Ok []
  | x :: l' => y ← f x; ys ← mapM f l'; Ok (y :: ys)
  end.

Fixpoint foldM {A S} (f : S -> A -> res S) (s : S) (l : list A) : res S :=
  match l with
  | [] => Ok s
  | x :: l' => s' ← f s x; foldM f s' l'
  end.

(** ** Bytes and [struct.pack] *)

(** A [bytes] object: each element is an integer in [0, 255]. *)
Definition bytes := list Z.

(** The [n] low-order bytes of [v], least significant first. *)
Fixpoint le_bytes (n : nat) (v : Z) : bytes :=
  match n with
  | O => []
  | S n' => Z.land v 255 :: le_bytes n' (Z.shiftr v 8)
  end.

(** [struct.pack('<B' | '<H' | '<I' | '<Q', s)]: standard-size unsigned
    formats of [n] bytes.  The struct module raises [struct.error] when
    the integer does not fit the format; it never wraps. *)
Definition struct_pack (n : nat) (s : Z) : res bytes :=
  if (0 <=? s) && (s <? 2 ^ (8 * Z.of_nat n))
  then Ok (le_bytes n s)
  else Err StructError.

Definition pack64 (s : Z) : res bytes := struct_pack 8 s.
Definition pack32 (s : Z) : res bytes := struct_pack 4 s.
Definition pack16 (s : Z) : res bytes := struct_pack 2 s.
Definition pack8 (s : Z) : res bytes := struct_pack 1 s.

(** [size2modifier]: reads the global [inses] only for its length, which
    is the argument [len_inses]. *)
Definition size2modifier (len_inses : nat) (size : Z) : res Z :=
  if size =? 64 then Ok 64
  else if size =? 32 then Ok 48
  else if size =? 16 then Ok 32
  else if size =? 8 then Ok 16
  else Err (InvalidSize size len_inses).

(** [ctypes.c_uintN(x).value]: the value of [x] reduced modulo [2^N],
    no overflow check.  The function falls off its end, returning
    [None], for any other size. *)
Definition signed2unsigned (x size : Z) : option Z :=
  if size =? 8 then Some (x mod 2 ^ 8)
  else if size =? 16 then Some (x mod 2 ^ 16)
  else if size =? 32 then Some (x mod 2 ^ 32)
  else if size =? 64 then Some (x mod 2 ^ 64)
  else None.

(** [pack]: [None] when no branch is taken. *)
Definition pack (val size : Z) : res (option bytes) :=
  if size =? 64 then b ← pack64 val; Ok (Some b)
  else if size =? 32 then b ← pack32 val; Ok (Some b)
  else if size =? 16 then b ← pack16 val; Ok (Some b)
  else if size =? 8 then b ← pack8 val; Ok (Some b)
  else Ok None.

(** ** Operands *)

(** The operand classes.  [Reg] keeps the register number ([name] is
    only used for printing); [LabelRef] keeps the label's name. *)
Inductive operand :=
| Reg (num : Z)
| Mem (addr : operand)
| StackMem (addr : operand)
| Imm (val : Z)
| LabelRef (name : string).

(** [Reg.__init__]: [assert r <= 0x11]. *)
Definition Reg_init (r : Z) : res operand :=
  if r <=? 0x11 then Ok (Reg r) else Err AssertionError.

Inductive pytype := TReg | TMem | TStackMem | TImm | TLabelRef.

#[global] Instance pytype_eq_dec : EqDecision pytype.
Proof. solve_decision. Defined.

Definition type_ (o : operand) : pytype :=
  match o with
  | Reg _ => TReg
  | Mem _ => TMem
  | StackMem _ => TStackMem
  | Imm _ => TImm
  | LabelRef _ => TLabelRef
  end.

(** [type(o) is t] *)
Definition type_is (o : operand) (t : pytype) : bool :=
  bool_decide (type_ o = t).

(** [type(o.addr) is t], for an [o] already known to be a [Mem] or a
    [StackMem]. *)
Definition addr_type_is (o : operand) (t : pytype) : bool :=
  match o with
  | Mem a | StackMem a => type_is a t
  | _ => false
  end.

(** [o.make(size)], dispatched on the class of [o].
    - [Reg.make] ignores [size];
    - [Mem.make] delegates to an [Imm] or [Reg] address and otherwise
      falls off its end;
    - [StackMem.make] is declared without the [size] parameter, so the
      call with one argument raises [TypeError];
    - [LabelRef.make] packs the temporary value 0. *)
Definition operand_make (o : operand) (size : Z) : res (option bytes) :=
  match o with
  | Reg num => b ← pack8 num; Ok (Some b)
  | Mem addr =>
      match addr with
      | Imm val => pack val size
      | Reg num => b ← pack8 num; Ok (Some b)
      | _ => Ok None
      end
  | StackMem _ => Err TypeError
  | Imm val => pack val size
  | LabelRef _ => pack 0 size
  end.

(** [bytecode += x]: concatenation, [TypeError] when [x] is [None]. *)
Definition iadd (bytecode : bytes) (x : option bytes) : res bytes :=
  match x with
  | Some b => Ok (bytecode ++ b)
  | None => Err TypeError
  end.

(** ** Addressing modes *)

(** The if/elif chain of [binop_mode]; [None] stands for the local
    [mode] left unassigned. *)
Definition binop_mode_code (dest src : operand) : option Z :=
  if type_is dest TReg && type_is src TReg then Some 0
  else if type_is dest TReg && type_is src TMem then
    if addr_type_is src TImm then Some 1
    else if addr_type_is src TReg then Some 0xc
    else None
  else if type_is dest TMem && type_is src TReg then
    if addr_type_is dest TReg then Some 0xb
    else if type_is dest TImm then Some 2
    else None
  else if type_is dest TReg && type_is src TStackMem then
    if addr_type_is src TImm then Some 3
    else if addr_type_is src TReg then Some 0xe
    else None
  else if type_is dest TStackMem && type_is src TReg then
    if addr_type_is dest TImm then Some 4
    else if addr_type_is dest TReg then Some 0xd
    else None
  else if type_is dest TReg && type_is src TImm then Some 5
  else None.

(** [return mode | size2modifier(size)]: the left operand is read
    first, so an unassigned [mode] raises before the size is looked at. *)
Definition binop_mode (len_inses : nat) (dest src : operand) (size : Z) : res Z :=
  match binop_mode_code dest src with
  | None => Err UnboundLocalError
  | Some mode => m ← size2modifier len_inses size; Ok (Z.lor mode m)
  end.

Definition unop_mode_code (dest : operand) : option Z :=
  if type_is dest TReg then Some 6
  else if type_is dest TImm then Some 7
  else if type_is dest TMem then Some 8
  else if type_is dest TLabelRef then Some 7
  else None.

Definition unop_mode (len_inses : nat) (dest : operand) (size : Z) : res Z :=
  match unop_mode_code dest with
  | None => Err UnboundLocalError
  | Some mode => m ← size2modifier len_inses size; Ok (Z.lor mode m)
  end.

(** ** Instructions *)

(** Subclasses of [BinOp] and of [UnOp]. *)
Inductive binop := Mov | Add | Sub | Mul | Div | Mod | Xor | Or | And | Shl | Shr | Cmp.
Inductive unop :=
  Not | Pop | Push | Call | Jmp | Je | Jne | Jg | Jl | Jge | Ja | Jnbe | Jb | Jc.

Definition binop_CODE (c : binop) : Z :=
  match c with
  | Mov => 1 | Add => 2 | Sub => 3 | Mul => 4 | Div => 5 | Mod => 6
  | Xor => 7 | Or => 8 | And => 9 | Shl => 10 | Shr => 11 | Cmp => 0x12
  end.

Definition unop_CODE (c : unop) : Z :=
  match c with
  | Not => 12 | Pop => 13 | Push => 14 | Call => 0x10 | Jmp => 0x13
  | Je => 0x14 | Jne => 0x15 | Jg => 0x16 | Jl => 0x18 | Jge => 0x19
  | Ja => 0x1a | Jnbe => 0x1b | Jb => 0x1c | Jc => 0x1d
  end.

(** An instruction object with its attributes.  [Exit] sets [bytecode]
    in [__init__]; [Ret] has no [bytecode] attribute before [make];
    [BinOp] and [UnOp] start with [bytecode = None]. *)
Inductive ins :=
| Exit (bytecode : bytes)
| Ret (bytecode : option bytes)
| BinOp (cls : binop) (dest src : operand) (size : Z) (bytecode : option bytes)
| UnOp (cls : unop) (dest : operand) (size : Z) (bytecode : option bytes).

Definition Exit_init : ins := Exit [0].
Definition Ret_CODE : Z := 0x11.

Definition BinOp_make (len_inses : nat) (code : Z) (dest src : operand) (size : Z)
  : res bytes :=
  mode ← binop_mode len_inses dest src size;
  let bytecode := [code] in
  let bytecode := bytecode ++ [mode] in
  d ← operand_make dest size;
  bytecode ← iadd bytecode d;
  s ← operand_make src size;
  iadd bytecode s.

Definition UnOp_make (len_inses : nat) (code : Z) (dest : operand) (size : Z)
  : res bytes :=
  mode ← unop_mode len_inses dest size;
  let bytecode := [code] in
  let bytecode := bytecode ++ [mode] in
  d ← operand_make dest size;
  iadd bytecode d.

(** [ins.make(ins.CODE)]: the instruction after the call. *)
Definition ins_make (len_inses : nat) (i : ins) : res ins :=
  match i with
  | Exit bc => Ok (Exit bc)
  | Ret _ => Ok (Ret (Some [Ret_CODE]))
  | BinOp c dest src size _ =>
      bc ← BinOp_make len_inses (binop_CODE c) dest src size;
      Ok (BinOp c dest src size (Some bc))
  | UnOp c dest size _ =>
      bc ← UnOp_make len_inses (unop_CODE c) dest size;
      Ok (UnOp c dest size (Some bc))
  end.

(** [len(i.bytecode)] *)
Definition ins_len (i : ins) : res nat :=
  match i with
  | Exit bc => Ok (length bc)
  | Ret None => Err AttributeError
  | Ret (Some bc) | BinOp _ _ _ _ (Some bc) | UnOp _ _ _ (Some bc) => Ok (length bc)
  | BinOp _ _ _ _ None | UnOp _ _ _ None => Err TypeError
  end.

(** [i.bytecode], as read by [bytecode += ins.bytecode]. *)
Definition ins_bytecode (i : ins) : res bytes :=
  match i with
  | Exit bc => Ok bc
  | Ret None => Err AttributeError
  | Ret (Some bc) | BinOp _ _ _ _ (Some bc) | UnOp _ _ _ (Some bc) => Ok bc
  | BinOp _ _ _ _ None | UnOp _ _ _ None => Err TypeError
  end.

(** ** Labels and the assembly session *)

Record Label := {
  name : string;
  use_sites : list nat;
  def_site : option nat;
  resolved : option Z
}.

Definition Label_init (name : string) : Label :=
  {| name := name; use_sites := []; def_site := None; resolved := None |}.

Definition Label_tag (l : Label) (def_site : nat) : Label :=
  {| name := name l; use_sites := use_sites l;
     def_site := Some def_site; resolved := resolved l |}.

(** [Label.ref]: the label after the call and the returned operand. *)
Definition Label_ref (l : Label) (ins_idx : nat) : Label * operand :=
  ({| name := name l; use_sites := use_sites l ++ [ins_idx];
      def_site := def_site l; resolved := resolved l |},
   LabelRef (name l)).

(** The module-level state.  [inses] and [labels] are the two global
    lists.  A [Label] object can be appended to [labels] more than once
    and is still mutated by [ref] after it was appended, so [labels]
    holds references: indices into [store], where the [Label] objects
    created so far live. *)
Record session := {
  inses : list ins;
  labels : list nat;
  store : list Label
}.

Definition empty_session : session :=
  {| inses := []; labels := []; store := [] |}.

(** [Label(name)] in client code: a new object; its reference is
    returned. *)
Definition new_label (name : string) (st : session) : session * nat :=
  ({| inses := inses st; labels := labels st;
      store := store st ++ [Label_init name] |},
   length (store st)).

(** ** Builder calls *)

Definition binop_ins (insname : binop) (mod_ : Z) (x y : operand) (st : session)
  : session :=
  {| inses := inses st ++ [BinOp insname x y mod_ None];
     labels := labels st; store := store st |}.

(** The names in [UOPS].  [uop_ins] looks the capitalised name up in
    [globals()]; there is no class [Nop]. *)
Module UOPS.

Inductive t :=
  push | pop | nop | jmp | call | je | jne | jg | jl | jge | ja | jnbe | jb | jc.

Definition class (insname : t) : option unop :=
  match insname with
  | push => Some Push | pop => Some Pop | nop => None | jmp => Some Jmp
  | call => Some Call | je => Some Je | jne => Some Jne | jg => Some Jg
  | jl => Some Jl | jge => Some Jge | ja => Some Ja | jnbe => Some Jnbe
  | jb => Some Jb | jc => Some Jc
  end.

End UOPS.

Definition uop_ins (insname : UOPS.t) (mod_ : Z) (x : operand) (st : session)
  : res session :=
  match UOPS.class insname with
  | None => Err KeyError
  | Some c =>
      Ok {| inses := inses st ++ [UnOp c x mod_ None];
            labels := labels st; store := store st |}
  end.

Definition exit (st : session) : session :=
  {| inses := inses st ++ [Exit_init]; labels := labels st; store := store st |}.

Definition ret (st : session) : session :=
  {| inses := inses st ++ [Ret None]; labels := labels st; store := store st |}.

(** [tag(label)].  The label is given by reference; a reference to no
    object stands for an unbound client variable. *)
Definition tag (label : nat) (st : session) : res session :=
  match store st !! label with
  | None => Err NameError
  | Some l =>
      Ok {| inses := inses st;
            labels := labels st ++ [label];
            store := <[label := Label_tag l (length (inses st))]> (store st) |}
  end.

(** [ref(label)] *)
Definition ref (label : nat) (st : session) : res (session * operand) :=
  match store st !! label with
  | None => Err NameError
  | Some l =>
      let '(l', o) := Label_ref l (length (inses st)) in
      Ok ({| inses := inses st; labels := labels st;
             store := <[label := l']> (store st) |}, o)
  end.

(** ** The phases of [assemble] *)

(** [for i in range(k): byte_offset += len(inses[i].bytecode)] *)
Fixpoint byte_offset (inses : list ins) (k : nat) : res nat :=
  match k with
  | O => Ok O
  | S k' =>
      match inses with
      | [] => Err IndexError
      | i :: rest =>
          n ← ins_len i;
          m ← byte_offset rest k';
          Ok (n + m)%nat
      end
  end.

(** [Label.resolve] *)
Definition Label_resolve (inses : list ins) (l : Label) : res Label :=
  match def_site l with
  | None => Err TypeError
  | Some d =>
      byte_offset ← byte_offset inses d;
      Ok {| name := name l; use_sites := use_sites l; def_site := def_site l;
            resolved := Some (Z.of_nat byte_offset) |}
  end.

(** One iteration of the loop of [Label.rewrite], for the use site
    [use] of a label whose [resolved] field is [resolved_].  When
    [signed2unsigned] returns [None] the size is unsupported and the
    [make] that follows raises without reading the new operand's
    value, so [Imm 0] stands for [Imm(None)] there. *)
Definition rewrite_use (resolved_ : option Z) (inses : list ins) (use : nat)
  : res (list ins) :=
  offset ← byte_offset inses (S use);
  match inses !! use with
  | None => Err IndexError
  | Some i =>
      R ← match resolved_ with Some r => Ok r | None => Err TypeError end;
      let dis := R - Z.of_nat offset in
      let new_dest size :=
        match signed2unsigned dis size with Some v => Imm v | None => Imm 0 end in
      match i with
      | Exit _ | Ret _ => Err AttributeError
      | BinOp c _ src size bc =>
          i' ← ins_make (length inses) (BinOp c (new_dest size) src size bc);
          Ok (<[use := i']> inses)
      | UnOp c _ size bc =>
          i' ← ins_make (length inses) (UnOp c (new_dest size) size bc);
          Ok (<[use := i']> inses)
      end
  end.

(** [Label.rewrite] *)
Definition Label_rewrite (l : Label) (inses : list ins) : res (list ins) :=
  foldM (rewrite_use (resolved l)) inses (use_sites l).

(** Phase 1: [for ins in inses: ins.make(ins.CODE)] *)
Definition phase1 (st : session) : res session :=
  inses' ← mapM (ins_make (length (inses st))) (inses st);
  Ok {| inses := inses'; labels := labels st; store := store st |}.

(** Phase 2: [for label in labels: label.resolve()] *)
Definition resolve_at (inses : list ins) (store : list Label) (label : nat)
  : res (list Label) :=
  match store !! label with
  | None => Err NameError
  | Some l => l' ← Label_resolve inses l; Ok (<[label := l']> store)
  end.

Definition phase2 (st : session) : res session :=
  store' ← foldM (resolve_at (inses st)) (store st) (labels st);
  Ok {| inses := inses st; labels := labels st; store := store' |}.

(** Phase 3: [for label in labels: label.rewrite()] *)
Definition rewrite_at (store : list Label) (inses : list ins) (label : nat)
  : res (list ins) :=
  match store !! label with
  | None => Err NameError
  | Some l => Label_rewrite l inses
  end.

Definition phase3 (st : session) : res session :=
  inses' ← foldM (rewrite_at (store st)) (inses st) (labels st);
  Ok {| inses := inses'; labels := labels st; store := store st |}.

(** Phase 4: [for ins in inses: bytecode += ins.bytecode].  The [print]
    of each instruction is diagnostic output and is left out. *)
Definition phase4 (st : session) : res bytes :=
  bcs ← mapM ins_bytecode (inses st);
  Ok (concat bcs).

(** [assemble()]: the session it leaves behind and the returned buffer. *)
Definition assemble (st : session) : res (session * bytes) :=
  st1 ← phase1 st;
  st2 ← phase2 st1;
  st3 ← phase3 st2;
  bytecode ← phase4 st3;
  Ok (st3, bytecode).

(** ** Client programs *)

(** Operand expressions as a client writes them in an emit call.
    [ERef l] is the call [ref(l)] in operand position, as in the usage
    notes of the module and in both example programs
    ([jl(B, ref(skip))], [call(B, ref(quicksort))]): Python evaluates it
    with the other arguments before the instruction is appended, so the
    use site it records is the index of the instruction being emitted.
    [EReg r] stands for [Reg('r<r>')]. *)
Inductive expr :=
| EReg (r : Z)
| EMem (a : expr)
| EStackMem (a : expr)
| EImm (v : Z)
| ERef (label : nat).

(** A client program is a sequence of builder calls, as in
    [main_bubble] and [main_quicksort].  An exception raised by a call
    ends the program. *)
Inductive stmt :=
| SLabel (name : string)                       (* Label(name): the next reference *)
| SBin (insname : binop) (mod_ : Z) (x y : expr)  (* mov(mod, x, y), add(...), ... *)
| SUn (insname : UOPS.t) (mod_ : Z) (x : expr)    (* jmp(mod, x), push(...), ... *)
| SExit
| SRet
| STag (label : nat).

Fixpoint eval (e : expr) (st : session) : res (session * operand) :=
  match e with
  | EReg r => o ← Reg_init r; Ok (st, o)
  | EMem a => '(st', o) ← eval a st; Ok (st', Mem o)
  | EStackMem a => '(st', o) ← eval a st; Ok (st', StackMem o)
  | EImm v => Ok (st, Imm v)
  | ERef l => ref l st
  end.

Definition exec (st : session) (s : stmt) : res session :=
  match s with
  | SLabel name => Ok (fst (new_label name st))
  | SBin insname mod_ x y =>
      '(st1, x') ← eval x st;
      '(st2, y') ← eval y st1;
      Ok (binop_ins insname mod_ x' y' st2)
  | SUn insname mod_ x =>
      '(st1, x') ← eval x st;
      uop_ins insname mod_ x' st1
  | SExit => Ok (exit st)
  | SRet => Ok (ret st)
  | STag l => tag l st
  end.

(** Run the builder calls of [p] from the session [st]. *)
Definition build (p : list stmt) (st : session) : res session :=
  foldM exec st p.

(** A whole client: build the program in a fresh process, then call
    [assemble()]. *)
Definition run (p : list stmt) : res bytes :=
  st ← build p empty_session;
  '(_, bytecode) ← assemble st;
  Ok bytecode.

(** * Specification vocabulary *)

(** ** Sizes and little-endian fields *)

Definition supported (size : Z) : bool :=
  (size =? 8) || (size =? 16) || (size =? 32) || (size =? 64).

(** The value held by a little-endian field. *)
Fixpoint le_value (b : bytes) : Z :=
  match b with
  | [] => 0
  | x :: b' => x + 256 * le_value b'
  end.

(** The same field read as a two's-complement number of [size] bits. *)
Definition signed_value (size : Z) (b : bytes) : Z :=
  let v := le_value b in
  if v <? 2 ^ (size - 1) then v else v - 2 ^ size.


(** ** Instructions with an unsupported operand size *)

Definition bad_size (i : ins) : bool :=
  match i with
  | BinOp _ _ _ size _ | UnOp _ _ size _ => negb (supported size)
  | Exit _ | Ret _ => false
  end.

(** The operand size written in an emit call, and the same call with
    another size. *)
Definition stmt_size (s : stmt) : option Z :=
  match s with
  | SBin _ mod_ _ _ | SUn _ mod_ _ => Some mod_
  | _ => None
  end.

Definition with_size (mod_ : Z) (s : stmt) : stmt :=
  match s with
  | SBin insname _ x y => SBin insname mod_ x y
  | SUn insname _ x => SUn insname mod_ x
  | _ => s
  end.

(** ** Sessions reached by builder calls *)

(** [S'] still holds every label of [S], and a label that had a
    definition site still has one. *)
Definition store_ext (S S' : list Label) : Prop :=
  ∀ l lab, S !! l = Some lab →
    ∃ lab', S' !! l = Some lab' ∧ (is_Some (def_site lab) → is_Some (def_site lab')).

(** ** Use sites and label references *)

(** Label references inside an operand. *)
Fixpoint refs_in (o : operand) : nat :=
  match o with
  | LabelRef _ => 1
  | Mem a | StackMem a => refs_in a
  | Reg _ | Imm _ => 0
  end.

Definition ins_refs (i : ins) : nat :=
  match i with
  | BinOp _ dest src _ _ => refs_in dest + refs_in src
  | UnOp _ dest _ _ => refs_in dest
  | Exit _ | Ret _ => 0
  end.

(** Every use site recorded in any label object. *)
Definition all_uses (S : list Label) : list nat := mjoin (use_sites <$> S).

(** Index [u] repeated once per label reference held by instruction
    [u]. *)
Definition sites_of (rs : list nat) : list nat :=
  mjoin (imap (λ u r, replicate r u) rs).

Definition sites (inses : list ins) : list nat := sites_of (ins_refs <$> inses).

(** Two label objects that differ at most in their use sites. *)
Definition same_def (a b : Label) : Prop :=
  name a = name b ∧ def_site a = def_site b ∧ resolved a = resolved b.

(** Two label objects that differ at most in their resolved offset. *)
Definition same_uses (a b : Label) : Prop :=
  name a = name b ∧ use_sites a = use_sites b ∧ def_site a = def_site b.

(** What holds of a session between two builder calls of a client
    program started in a fresh process. *)
Record built (st : session) : Prop := {
  built_uses : all_uses (store st) ≡ₚ sites (inses st);
  built_table : ∀ l, l ∈ labels st →
    ∃ lab d, store st !! l = Some lab ∧ def_site lab = Some d
             ∧ (d ≤ length (inses st))%nat;
  built_untagged : ∀ l lab,
    store st !! l = Some lab → def_site lab = None → l ∉ labels st;
  built_unresolved : ∀ l lab, store st !! l = Some lab → resolved lab = None
}.

(** ** Encoded instructions *)

(** The instruction carries the bytecode its own [make] gives. *)
Definition made (n : nat) (i : ins) : Prop := ins_make n i = Ok i.

(** The bytecode of an encoded instruction, its length, and the byte
    offset just before instruction [k]. *)
Definition bytes_of (i : ins) : bytes :=
  match ins_bytecode i with Ok b => b | Err _ => [] end.

Definition len_of (i : ins) : nat := length (bytes_of i).

Definition offset_of (inses : list ins) (k : nat) : nat :=
  sum_list (take k (len_of <$> inses)).

(** The destination is a label reference or an immediate. *)
Definition jump_dest (d : operand) : bool :=
  type_is d TLabelRef || type_is d TImm.

(** ** The rewrite pass *)

(** What [Label.rewrite] makes of a unary instruction at a use site,
    for a label resolved to [R] and the byte offset [off] just after
    the instruction. *)
Definition rewritten (n : nat) (R : Z) (off : nat) (i : ins) : ins :=
  match i with
  | UnOp c _ size _ =>
      let v := (R - Z.of_nat off) mod 2 ^ size in
      let m := match size2modifier n size with Ok m => m | Err _ => 0 end in
      UnOp c (Imm v) size
        (Some ([unop_CODE c; Z.lor 7 m] ++ le_bytes (Z.to_nat (size / 8)) v))
  | _ => i
  end.

Definition patched (n : nat) (R : Z) (off : nat) (i : ins) : Prop :=
  ∃ c d size bc, i = rewritten n R off (UnOp c d size bc) ∧ supported size = true.

(** The declared operand size of an instruction. *)
Definition ins_size (i : ins) : option Z :=
  match i with
  | BinOp _ _ _ size _ | UnOp _ _ size _ => Some size
  | Exit _ | Ret _ => None
  end.

(** Same byte length, same opcode and mode byte, same operand size. *)
Definition same_shape (i0 i : ins) : Prop :=
  len_of i = len_of i0
  ∧ take 2 (bytes_of i) = take 2 (bytes_of i0)
  ∧ ins_size i = ins_size i0.

Definition stable (inses0 inses : list ins) : Prop :=
  Forall2 same_shape inses0 inses.

(** What the rewrite pass relies on: every instruction is encoded, and
    every recorded use site is a unary instruction whose destination is
    a label reference or an immediate. *)
Record ready (S : list Label) (inses : list ins) : Prop := {
  ready_made : Forall (made (length inses)) inses;
  ready_jump : ∀ u, u ∈ all_uses S →
    ∃ c d size bc, inses !! u = Some (UnOp c d size bc) ∧ jump_dest d = true
}.

(** ** The outcome of [assemble()] on a built session

    [st] is the session the builder calls left, [st1] the session after
    phase 1, [st3] the session [assemble()] leaves behind and [out] the
    buffer it returns. *)
Record assembled (st st1 st3 : session) (out : bytes) : Prop := {
  asm_result : assemble st = Ok (st3, out);
  asm_again : assemble st3 = Ok (st3, out);
  asm_labels : labels st3 = labels st;
  asm_store : Forall2 same_uses (store st) (store st3);
  asm_ready : ready (store st3) (inses st3);
  asm_stable : stable (inses st1) (inses st3);
  asm_resolved : ∀ l lab,
    l ∈ labels st → store st3 !! l = Some lab →
    ∃ d, def_site lab = Some d
         ∧ resolved lab = Some (Z.of_nat (offset_of (inses st1) d));
  asm_unresolved : ∀ l lab,
    l ∉ labels st → store st3 !! l = Some lab → resolved lab = None;
  asm_patched : ∀ l lab R u,
    l ∈ labels st → store st3 !! l = Some lab → resolved lab = Some R →
    u ∈ use_sites lab →
    ∃ i, inses st3 !! u = Some i
         ∧ patched (length (inses st1)) R (offset_of (inses st1) (S u)) i;
  asm_untouched : ∀ u,
    (∀ l lab, l ∈ labels st → store st3 !! l = Some lab → u ∉ use_sites lab) →
    inses st3 !! u = inses st1 !! u
}.

(** ** The scenario of the label test

    One 64-bit [mov], then [tag(L)], then a second [mov]; a [jmp] to
    [L] of width [w] stands before the tag, either right before it or
    at the start of the stream. *)
Definition scenario_near (w : Z) : list stmt :=
  [SLabel "L";
   SBin Mov 64 (EReg 0) (EImm 1);
   SUn UOPS.jmp w (ERef 0);
   STag 0;
   SBin Mov 64 (EReg 1) (EImm 2)].

Definition scenario_first (w : Z) : list stmt :=
  [SLabel "L";
   SUn UOPS.jmp w (ERef 0);
   SBin Mov 64 (EReg 0) (EImm 1);
   STag 0;
   SBin Mov 64 (EReg 1) (EImm 2)].

(** ** Wire format *)

(** A value that fits one byte. *)
Definition is_byte (x : Z) : Prop := 0 ≤ x < 256.

(** Bytes an operand contributes to an instruction of operand size
    [size]: a register, or a memory operand addressed by a register,
    is one byte; everything else that encodes takes size/8 bytes. *)
Definition operand_width (o : operand) (size : Z) : nat :=
  match o with
  | Reg _ | Mem (Reg _) => 1
  | _ => Z.to_nat (size / 8)
  end.

(** Byte length of an instruction as a function of its operand kinds
    and operand size. *)
Definition ins_width (i : ins) : nat :=
  match i with
  | Exit bc => length bc
  | Ret _ => 1
  | BinOp _ dest src size _ => 2 + operand_width dest size + operand_width src size
  | UnOp _ dest size _ => 2 + operand_width dest size
  end.

(** The instruction has a stack-relative memory operand. *)
Definition has_StackMem (i : ins) : bool :=
  match i with
  | BinOp _ dest src _ _ => type_is dest TStackMem || type_is src TStackMem
  | UnOp _ dest _ _ => type_is dest TStackMem
  | Exit _ | Ret _ => false
  end.

(** The opcode an instruction object is encoded with: [ins.CODE]. *)
Definition ins_CODE (i : ins) : Z :=
  match i with
  | Exit _ => 0
  | Ret _ => Ret_CODE
  | BinOp c _ _ _ _ => binop_CODE c
  | UnOp c _ _ _ => unop_CODE c
  end.

(** The class of an instruction object, without its attributes. *)
Inductive ins_class :=
| CExit
| CRet
| CBinOp (c : binop)
| CUnOp (c : unop).

Definition class_of (i : ins) : ins_class :=
  match i with
  | Exit _ => CExit
  | Ret _ => CRet
  | BinOp c _ _ _ _ => CBinOp c
  | UnOp c _ _ _ => CUnOp c
  end.

Definition class_CODE (k : ins_class) : Z :=
  match k with
  | CExit => 0
  | CRet => Ret_CODE
  | CBinOp c => binop_CODE c
  | CUnOp c => unop_CODE c
  end.

(** An operand without its [Mem] wrapper, and an instruction whose
    operands lost theirs. *)
Definition strip_Mem (o : operand) : operand :=
  match o with
  | Mem a => a
  | _ => o
  end.

Definition strip_ins (i : ins) : ins :=
  match i with
  | BinOp c dest src size bc => BinOp c (strip_Mem dest) (strip_Mem src) size bc
  | UnOp c dest size bc => UnOp c (strip_Mem dest) size bc
  | _ => i
  end.

Definition has_Mem (i : ins) : bool :=
  match i with
  | BinOp _ dest src _ _ => type_is dest TMem || type_is src TMem
  | UnOp _ dest _ _ => type_is dest TMem
  | Exit _ | Ret _ => false
  end.

(** ** Builder calls that return *)

(** The operand expression names registers up to 0x11 and label
    objects that exist ([nlabels] have been created); the statement
    moreover uses a unary mnemonic that has a class (any but [nop]). *)
Fixpoint expr_ok (nlabels : nat) (e : expr) : bool :=
  match e with
  | EReg r => r <=? 0x11
  | EMem a | EStackMem a => expr_ok nlabels a
  | EImm _ => true
  | ERef l => bool_decide (l < nlabels)%nat
  end.

Definition stmt_ok (nlabels : nat) (s : stmt) : bool :=
  match s with
  | SLabel _ | SExit | SRet => true
  | SBin _ _ x y => expr_ok nlabels x && expr_ok nlabels y
  | SUn insname _ x =>
      expr_ok nlabels x
      && match UOPS.class insname with Some _ => true | None => false end
  | STag l => bool_decide (l < nlabels)%nat
  end.

(** An instruction object as the builder calls create it. *)
Definition fresh (i : ins) : Prop :=
  match i with
  | Exit bc => bc = [0]
  | Ret bc | BinOp _ _ _ _ bc | UnOp _ _ _ bc => bc = None
  end.

(** ** The example programs *)

Definition B : Z := 8.
Definition S_ : Z := 16.
Definition D : Z := 32.
Definition Q : Z := 64.

(** The builder calls of [main_bubble].  Label references: 0 is the
    first [loop] object (rebound before any use), 1 [big_loop],
    2 [loop], 3 [skip]. *)
Definition main_bubble : list stmt :=
  [SLabel "loop"; SLabel "big_loop"; SLabel "loop"; SLabel "skip";
   SBin Mov B (EReg 8) (EImm 8);
   SBin Mov B (EReg 0) (EImm 100);
   SBin Mov B (EReg 7) (EImm 1);
   STag 1;
   SBin Xor Q (EReg 1) (EReg 1);
   SBin Mov Q (EReg 2) (EReg 8);
   STag 2;
   SBin Mov Q (EReg 3) (EMem (EReg 1));
   SBin Mov Q (EReg 4) (EMem (EReg 2));
   SBin Cmp Q (EReg 3) (EReg 4);
   SUn UOPS.jl B (ERef 3);
   SBin Mov Q (EMem (EReg 1)) (EReg 4);
   SBin Mov Q (EMem (EReg 2)) (EReg 3);
   STag 3;
   SBin Add Q (EReg 1) (EReg 8);
   SBin Add Q (EReg 2) (EReg 8);
   SBin Cmp S_ (EReg 2) (EImm 800);
   SUn UOPS.jl B (ERef 2);
   SBin Sub Q (EReg 0) (EReg 7);
   SUn UOPS.jg B (ERef 1);
   SExit].

(** The builder calls of [main_quicksort].  Label references in order
    of creation: 0 [quicksort], 1 [end_qsort], 2 [loop_check],
    3 [loop_begin], 4 [loop1_end], 5 [loop1_begin], 6 [loop2_end],
    7 [loop2_begin]. *)
Definition main_quicksort : list stmt :=
  [SLabel "quicksort"; SLabel "end_qsort"; SLabel "loop_check";
   SLabel "loop_begin"; SLabel "loop1_end"; SLabel "loop1_begin";
   SLabel "loop2_end"; SLabel "loop2_begin";
   SBin Mov S_ (EReg 1) (EImm 0);
   SBin Mov S_ (EReg 2) (EImm ((100 - 1) * 8));
   SUn UOPS.call B (ERef 0);
   SExit;
   STag 0;
   SBin Cmp S_ (EReg 1) (EReg 2);
   SUn UOPS.jge B (ERef 1);
   SBin Mov Q (EReg 0) (EMem (EReg 1));
   SBin Mov S_ (EReg 11) (EReg 1);
   SBin Mov S_ (EReg 12) (EReg 2);
   SUn UOPS.jmp B (ERef 2);
   STag 3;
   STag 5;
   SBin Mov Q (EReg 5) (EMem (EReg 12));
   SBin Cmp Q (EReg 5) (EReg 0);
   SUn UOPS.jl B (ERef 4);
   SBin Cmp S_ (EReg 11) (EReg 12);
   SUn UOPS.jge B (ERef 4);
   SBin Sub S_ (EReg 12) (EImm 8);
   SUn UOPS.jmp B (ERef 5);
   STag 4;
   SBin Mov Q (EMem (EReg 11)) (EReg 5);
   STag 7;
   SBin Mov Q (EReg 4) (EMem (EReg 11));
   SBin Cmp Q (EReg 4) (EReg 0);
   SUn UOPS.jg B (ERef 6);
   SBin Cmp S_ (EReg 11) (EReg 12);
   SUn UOPS.jge B (ERef 6);
   SBin Add S_ (EReg 11) (EImm 8);
   SUn UOPS.jmp B (ERef 7);
   STag 6;
   SBin Mov Q (EMem (EReg 12)) (EReg 4);
   STag 2;
   SBin Cmp S_ (EReg 11) (EReg 12);
   SUn UOPS.jl B (ERef 3);
   SBin Mov Q (EMem (EReg 11)) (EReg 0);
   SUn UOPS.push S_ (EReg 2);
   SUn UOPS.push S_ (EReg 11);
   SBin Mov S_ (EReg 2) (EReg 11);
   SBin Sub S_ (EReg 2) (EImm 8);
   SUn UOPS.call B (ERef 0);
   SUn UOPS.pop S_ (EReg 1);
   SBin Add S_ (EReg 1) (EImm 8);
   SUn UOPS.pop S_ (EReg 2);
   SUn UOPS.call B (ERef 0);
   STag 1;
   SRet].

(** Build a client program in a fresh process and assemble it. *)
Definition assemble_program (p : list stmt) : res (session * bytes) :=
  st ← build p empty_session; assemble st.

(** The use site [u] holds a unary instruction whose immediate is the
    two's-complement form, at the instruction's width, of [R] minus the
    offset just after the instruction, and that difference fits the
    width. *)
Definition use_exact (st : session) (R : Z) (u : nat) : bool :=
  match inses st !! u, byte_offset (inses st) (S u) with
  | Some (UnOp _ (Imm v) size _), Ok after =>
      let d := R - Z.of_nat after in
      (- 2 ^ (size - 1) <=? d) && (d <? 2 ^ (size - 1))
      && (v =? d mod 2 ^ size)
  | _, _ => false
  end.

(** Every label in the table is resolved and all its use sites are
    exact. *)
Definition jumps_exact (st : session) : bool :=
  forallb
    (λ l, match store st !! l with
          | Some lab =>
              match resolved lab with
              | Some R => forallb (use_exact st R) (use_sites lab)
              | None => false
              end
          | None => false
          end)
    (labels st).

(** ** Sessions reachable through the builder functions

    The builder functions are ordinary functions: a client can call
    them in any order and with any operands.  In particular the operand
    returned by [ref] need not become the destination of the next
    instruction appended; it can be dropped, kept for a later
    instruction, or used in a binary instruction. *)
Inductive reachable : session → Prop :=
| reach_empty : reachable empty_session
| reach_Label st name : reachable st → reachable (fst (new_label name st))
| reach_binop st insname mod_ x y :
    reachable st → reachable (binop_ins insname mod_ x y st)
| reach_uop st insname mod_ x st' :
    reachable st → uop_ins insname mod_ x st = Ok st' → reachable st'
| reach_exit st : reachable st → reachable (exit st)
| reach_ret st : reachable st → reachable (ret st)
| reach_tag st label st' : reachable st → tag label st = Ok st' → reachable st'
| reach_ref st label st' o :
    reachable st → ref label st = Ok (st', o) → reachable st'.

(** What every reachable session satisfies. *)
Record api_inv (st : session) : Prop := {
  api_table : ∀ l, l ∈ labels st →
    ∃ lab d, store st !! l = Some lab ∧ def_site lab = Some d
             ∧ (d ≤ length (inses st))%nat;
  api_tagged : ∀ l lab,
    store st !! l = Some lab → is_Some (def_site lab) → l ∈ labels st;
  api_unresolved : ∀ l lab, store st !! l = Some lab → resolved lab = None;
  api_uses : ∀ l lab u,
    store st !! l = Some lab → u ∈ use_sites lab → (u ≤ length (inses st))%nat;
  api_fresh : Forall fresh (inses st)
}.

(** The references are in place: the use sites recorded in the label
    objects are, each as often as it was recorded, the positions of the
    label references held by the instructions of the stream.  This is
    the case when every [ref(label)] call is written as an operand of
    the emit call that consumes it, and also when the returned operand
    is kept in a variable and passed to the very next emit call. *)
Definition refs_in_place (st : session) : Prop :=
  all_uses (store st) ≡ₚ sites (inses st).

(** Three sessions in which a reference is not in place.

    [L = Label('L'); ref(L); push(S, r2); tag(L)] *)
Definition stray_push : res session :=
  let '(st, lbl) := new_label "L" empty_session in
  '(st, _) ← ref lbl st;
  st ← uop_ins UOPS.push 16 (Reg 2) st;
  tag lbl st.

(** [L = Label('L'); t = ref(L); push(Q, r0); jmp(B, t); tag(L); exit()] *)
Definition stray_jmp : res session :=
  let '(st, lbl) := new_label "L" empty_session in
  '(st, t) ← ref lbl st;
  st ← uop_ins UOPS.push 64 (Reg 0) st;
  st ← uop_ins UOPS.jmp 8 t st;
  st ← tag lbl st;
  Ok (exit st).


(** A backward jump: [L = Label('L'); tag(L); mov(Q, r0, Imm(1));
    jmp(B, ref(L))]. *)
Definition loop_back : list stmt :=
  [SLabel "L"; STag 0; SBin Mov 64 (EReg 0) (EImm 1); SUn UOPS.jmp 8 (ERef 0)].
(** * Properties *)

(** ** Packing *)

Lemma supported_cases size :
  supported size = true → size = 8 ∨ size = 16 ∨ size = 32 ∨ size = 64.
Proof. unfold supported. lia. Qed.

Ltac each_size H :=
  apply supported_cases in H;
  destruct H as [-> | [-> | [-> | ->]]].

Lemma length_le_bytes n v : length (le_bytes n v) = n.
Proof. revert v. induction n as [|n IH]; intros v; simpl; [done|]. by rewrite IH. Qed.

Lemma le_value_le_bytes n v : le_value (le_bytes n v) = v mod 2 ^ (8 * Z.of_nat n).
Proof.
  revert v. induction n as [|n IH]; intros v.
  - simpl. by rewrite Z.mod_1_r.
  - cbn [le_bytes le_value]. rewrite IH.
    change 255 with (Z.ones 8). rewrite Z.land_ones by lia.
    rewrite Z.shiftr_div_pow2 by lia.
    replace (8 * Z.of_nat (S n)) with (8 + 8 * Z.of_nat n) by lia.
    rewrite Z.pow_add_r by lia.
    rewrite Z.rem_mul_r by lia. reflexivity.
Qed.

Lemma le_bytes_range n v : Forall (λ x, 0 ≤ x < 256) (le_bytes n v).
Proof.
  revert v. induction n as [|n IH]; intros v; simpl; constructor; [|apply IH].
  change 255 with (Z.ones 8). rewrite Z.land_ones by lia.
  apply Z.mod_pos_bound. lia.
Qed.

Lemma struct_pack_ok n s :
  0 ≤ s < 2 ^ (8 * Z.of_nat n) → struct_pack n s = Ok (le_bytes n s).
Proof.
  intros [H1 H2]. unfold struct_pack.
  destruct (Z.leb_spec 0 s), (Z.ltb_spec s (2 ^ (8 * Z.of_nat n))); simpl; auto; lia.
Qed.

Lemma struct_pack_err n s :
  ¬ (0 ≤ s < 2 ^ (8 * Z.of_nat n)) → struct_pack n s = Err StructError.
Proof.
  intros H. unfold struct_pack.
  destruct (Z.leb_spec 0 s), (Z.ltb_spec s (2 ^ (8 * Z.of_nat n))); simpl; auto; lia.
Qed.

(** [pack] at a supported size is [struct.pack] at [size/8] bytes. *)
Lemma pack_supported val size :
  supported size = true →
  pack val size = (b ← struct_pack (Z.to_nat (size / 8)) val; Ok (Some b)).
Proof. intros H. each_size H; reflexivity. Qed.

Lemma pack_ok val size :
  supported size = true → 0 ≤ val < 2 ^ size →
  pack val size = Ok (Some (le_bytes (Z.to_nat (size / 8)) val)).
Proof.
  intros H Hv. rewrite pack_supported by done.
  rewrite struct_pack_ok; [done|].
  each_size H; exact Hv.
Qed.

Lemma pack_err val size :
  supported size = true → ¬ (0 ≤ val < 2 ^ size) →
  pack val size = Err StructError.
Proof.
  intros H Hv. rewrite pack_supported by done.
  rewrite struct_pack_err; [done|].
  each_size H; exact Hv.
Qed.

(** ** The error monad *)

Lemma bind_ok {A B} (c : res A) (k : A → res B) b :
  c ≫= k = Ok b → ∃ a, c = Ok a ∧ k a = Ok b.
Proof. destruct c as [a|e]; simpl; [eauto | discriminate]. Qed.

(** Invert a hypothesis [H : (x ← c; k) = Ok b]. *)
Ltac inv_bind H :=
  let a := fresh "a" in
  let Ha := fresh "Ha" in
  apply bind_ok in H; destruct H as (a & Ha & H).

Tactic Notation "unbind" hyp(H) "as" ident(a) ident(Ha) :=
  apply bind_ok in H; destruct H as (a & Ha & H).

Ltac inv_ok H := injection H as H; try subst.

Lemma mapM_err {A B} (f : A → res B) l x e :
  x ∈ l → f x = Err e → ∃ e', mapM f l = Err e'.
Proof.
  intros Hin Hx. induction Hin as [x l | x y l Hin IH]; simpl.
  - rewrite Hx. eauto.
  - destruct (f y); simpl; [|eauto].
    destruct (IH Hx) as [e' ->]. eauto.
Qed.

Lemma mapM_id {A} (f : A → res A) l :
  Forall (λ x, f x = Ok x) l → mapM f l = Ok l.
Proof. induction 1 as [|x l Hx _ IH]; simpl; [done|]. by rewrite Hx, IH. Qed.

(** ** Addressing modes (C1, C10) *)

Lemma size2modifier_supported n size :
  supported size = true →
  size2modifier n size = Ok (16 * (if size =? 64 then 4 else if size =? 32 then 3
                                   else if size =? 16 then 2 else 1)).
Proof. intros H. each_size H; reflexivity. Qed.

Lemma size2modifier_unsupported n size :
  supported size = false → size2modifier n size = Err (InvalidSize size n).
Proof.
  unfold supported, size2modifier. intros H.
  destruct (size =? 64) eqn:?, (size =? 32) eqn:?, (size =? 16) eqn:?,
    (size =? 8) eqn:?; simpl in H; done.
Qed.

(** The rows of the addressing-mode table that [binop_mode] does
    reach, each OR'd with the size class. *)
Lemma binop_mode_rows n size (r r' v : Z) :
  supported size = true →
  ∃ m, size2modifier n size = Ok m ∧ m ∈ [0x10; 0x20; 0x30; 0x40] ∧
    binop_mode n (Reg r) (Reg r') size = Ok (Z.lor 0x0 m) ∧
    binop_mode n (Reg r) (Mem (Imm v)) size = Ok (Z.lor 0x1 m) ∧
    binop_mode n (Reg r) (Mem (Reg r')) size = Ok (Z.lor 0xc m) ∧
    binop_mode n (Mem (Reg r)) (Reg r') size = Ok (Z.lor 0xb m) ∧
    binop_mode n (Reg r) (StackMem (Imm v)) size = Ok (Z.lor 0x3 m) ∧
    binop_mode n (StackMem (Imm v)) (Reg r) size = Ok (Z.lor 0x4 m) ∧
    binop_mode n (Reg r) (StackMem (Reg r')) size = Ok (Z.lor 0xe m) ∧
    binop_mode n (StackMem (Reg r)) (Reg r') size = Ok (Z.lor 0xd m) ∧
    binop_mode n (Reg r) (Imm v) size = Ok (Z.lor 0x5 m).
Proof.
  intros H. each_size H; eexists; (split; [reflexivity|]);
    (split; [rewrite !elem_of_cons; tauto|]); repeat split.
Qed.

(** C1 — the claim's "in particular" case on the code: for a
    destination [Mem(Imm(v))] and a register source, the branch
    [elif type(dest) is Imm] tests the memory operand itself instead of
    its address, so it is never taken, [mode] stays unassigned and the
    [return] raises; no mode byte with code 0x2 is ever produced.  The
    sibling branches test [type(dest.addr)] / [type(src.addr)]. *)
Theorem binop_mode_mem_imm_dest_unbound n v r size :
  binop_mode n (Mem (Imm v)) (Reg r) size = Err UnboundLocalError.
Proof. reflexivity. Qed.

Lemma binop_mode_code_labelref dest src :
  type_is dest TLabelRef || type_is src TLabelRef = true →
  binop_mode_code dest src = None.
Proof. destruct dest, src; simpl; intros H; try done; by destruct addr. Qed.

Lemma phase1_err st i e :
  i ∈ inses st → ins_make (length (inses st)) i = Err e →
  ∃ e', assemble st = Err e'.
Proof.
  intros Hin Hi. unfold assemble, phase1.
  destruct (mapM_err _ _ _ _ Hin Hi) as [e' ->]. simpl. eauto.
Qed.

(** C10 — a binary instruction with a label reference as destination
    or source selects no addressing mode: its [make] raises
    [UnboundLocalError], and [assemble()] on a stream that holds such an
    instruction raises and returns no buffer. *)
Theorem binop_label_operand_rejected st c dest src size bc :
  type_is dest TLabelRef || type_is src TLabelRef = true →
  BinOp c dest src size bc ∈ inses st →
  BinOp_make (length (inses st)) (binop_CODE c) dest src size = Err UnboundLocalError
  ∧ ∃ e, assemble st = Err e.
Proof.
  intros Hl Hin.
  assert (BinOp_make (length (inses st)) (binop_CODE c) dest src size
          = Err UnboundLocalError) as Hmake.
  { unfold BinOp_make, binop_mode. by rewrite binop_mode_code_labelref. }
  split; [done|].
  eapply phase1_err; [done|]. simpl. by rewrite Hmake.
Qed.

Lemma binop_label_operand_rejected_witness :
  let st := {| inses := [BinOp Mov (Reg 0) (LabelRef "L") 64 None];
               labels := []; store := [Label_init "L"] |} in
  BinOp_make 1 (binop_CODE Mov) (Reg 0) (LabelRef "L") 64 = Err UnboundLocalError
  ∧ ∃ e, assemble st = Err e.
Proof.
  intros st.
  apply (binop_label_operand_rejected st Mov (Reg 0) (LabelRef "L") 64 None).
  - reflexivity.
  - apply list_elem_of_here.
Defined.

(** ** Immediates (C6) *)

(** C6, as stated, fails: an immediate outside [0, 2^width) is not
    reduced modulo [2^width]; [struct.pack] raises. *)
Lemma Imm_make_no_wraparound :
  operand_make (Imm (-1)) 8 = Err StructError
  ∧ operand_make (Imm 256) 8 = Err StructError
  ∧ operand_make (Imm (2 ^ 64)) 64 = Err StructError.
Proof. repeat split. Qed.

(** C6 (amended) — at a supported width, an immediate in
    [0, 2^width) encodes to exactly width/8 bytes that hold the value
    little-endian; any other integer makes the encoding raise. *)
Theorem Imm_make_range_checked v size :
  supported size = true →
  (0 ≤ v < 2 ^ size →
     ∃ b, operand_make (Imm v) size = Ok (Some b)
          ∧ Z.of_nat (length b) = size / 8
          ∧ Forall (λ x, 0 ≤ x < 256) b
          ∧ le_value b = v)
  ∧ (¬ (0 ≤ v < 2 ^ size) → operand_make (Imm v) size = Err StructError).
Proof.
  intros Hs. split.
  - intros Hv. exists (le_bytes (Z.to_nat (size / 8)) v). simpl.
    rewrite pack_ok by done. split; [done|].
    rewrite length_le_bytes, le_value_le_bytes.
    split; [|split; [apply le_bytes_range|]].
    + each_size Hs; reflexivity.
    + rewrite Z.mod_small; [done|]. each_size Hs; exact Hv.
  - intros Hv. simpl. by apply pack_err.
Qed.

Lemma Imm_make_range_checked_witness :
  ∃ b, operand_make (Imm 800) 16 = Ok (Some b)
       ∧ Z.of_nat (length b) = 16 / 8
       ∧ Forall (λ x, 0 ≤ x < 256) b
       ∧ le_value b = 800.
Proof.
  apply (proj1 (Imm_make_range_checked 800 16 eq_refl)). lia.
Defined.

(** ** Builder calls: what they leave unchanged *)

Lemma ref_spec l st st' o :
  ref l st = Ok (st', o) →
  ∃ lab, store st !! l = Some lab
    ∧ o = LabelRef (name lab)
    ∧ st' = {| inses := inses st; labels := labels st;
               store := <[l := fst (Label_ref lab (length (inses st)))]> (store st) |}.
Proof.
  unfold ref. destruct (store st !! l) as [lab|] eqn:Hl; [|done].
  simpl. intros H. inv_ok H. eauto.
Qed.

Lemma eval_frame e st st' o :
  eval e st = Ok (st', o) → inses st' = inses st ∧ labels st' = labels st.
Proof.
  revert st' o. induction e as [r|a IH|a IH|v|l]; intros st' o H; simpl in H.
  - inv_bind H. by inv_ok H.
  - inv_bind H. destruct a0 as [st1 o1]. inv_ok H. eauto.
  - inv_bind H. destruct a0 as [st1 o1]. inv_ok H. eauto.
  - by inv_ok H.
  - apply ref_spec in H as (lab & _ & _ & ->). done.
Qed.

Lemma store_ext_refl S : store_ext S S.
Proof. intros l lab H. eauto. Qed.

Lemma store_ext_trans S1 S2 S3 : store_ext S1 S2 → store_ext S2 S3 → store_ext S1 S3.
Proof.
  intros H12 H23 l lab H.
  destruct (H12 _ _ H) as (lab2 & H2 & Hd2).
  destruct (H23 _ _ H2) as (lab3 & H3 & Hd3). eauto.
Qed.

Lemma store_ext_insert S l lab lab' :
  S !! l = Some lab → (is_Some (def_site lab) → is_Some (def_site lab')) →
  store_ext S (<[l := lab']> S).
Proof.
  intros Hl Hd k labk Hk. destruct (decide (k = l)) as [->|Hne].
  - exists lab'. rewrite list_lookup_insert_eq by (by eapply lookup_lt_Some).
    split; [done|]. by simplify_eq.
  - exists labk. by rewrite list_lookup_insert_ne.
Qed.

Lemma eval_store_ext e st st' o :
  eval e st = Ok (st', o) → store_ext (store st) (store st').
Proof.
  revert st' o. induction e as [r|a IH|a IH|v|l]; intros st' o H; simpl in H.
  - inv_bind H. inv_ok H. apply store_ext_refl.
  - inv_bind H. destruct a0 as [st1 o1]. inv_ok H. eauto.
  - inv_bind H. destruct a0 as [st1 o1]. inv_ok H. eauto.
  - inv_ok H. apply store_ext_refl.
  - apply ref_spec in H as (lab & Hl & _ & ->). simpl.
    by eapply store_ext_insert.
Qed.

Lemma exec_inses st s st' :
  exec st s = Ok st' → ∃ suffix, inses st' = inses st ++ suffix.
Proof.
  destruct s as [nm|c m x y|c m x| | |l]; simpl; intros H.
  - inv_ok H. exists []. by rewrite app_nil_r.
  - inv_bind H. destruct a as [st1 x']. inv_bind H. destruct a as [st2 y'].
    inv_ok H. apply eval_frame in Ha as [Ha _], Ha0 as [Ha0 _].
    simpl. rewrite Ha0, Ha. eauto.
  - inv_bind H. destruct a as [st1 x']. apply eval_frame in Ha as [Ha _].
    unfold uop_ins in H. destruct (UOPS.class c); [|done]. inv_ok H.
    simpl. rewrite Ha. eauto.
  - inv_ok H. simpl. eauto.
  - inv_ok H. simpl. eauto.
  - unfold tag in H. destruct (store st !! l); [|done]. inv_ok H.
    exists []. by rewrite app_nil_r.
Qed.

Lemma exec_store_ext st s st' :
  exec st s = Ok st' → store_ext (store st) (store st').
Proof.
  destruct s as [nm|c m x y|c m x| | |l]; simpl; intros H.
  - inv_ok H. simpl. intros k lab Hk. exists lab.
    by rewrite lookup_app_l by (by eapply lookup_lt_Some).
  - inv_bind H. destruct a as [st1 x']. inv_bind H. destruct a as [st2 y'].
    inv_ok H. simpl. eapply store_ext_trans; by eapply eval_store_ext.
  - inv_bind H. destruct a as [st1 x']. apply eval_store_ext in Ha.
    unfold uop_ins in H. destruct (UOPS.class c); [|done]. by inv_ok H.
  - inv_ok H. apply store_ext_refl.
  - inv_ok H. apply store_ext_refl.
  - unfold tag in H. destruct (store st !! l) eqn:Hl; [|done]. inv_ok H.
    simpl. by eapply store_ext_insert.
Qed.

Lemma build_inses p st st' :
  build p st = Ok st' → ∃ suffix, inses st' = inses st ++ suffix.
Proof.
  revert st. induction p as [|s p IH]; intros st H; simpl in H.
  - inv_ok H. exists []. by rewrite app_nil_r.
  - inv_bind H. apply exec_inses in Ha as [s1 Ha].
    apply IH in H as [s2 H]. rewrite H, Ha, <- app_assoc. eauto.
Qed.

Lemma build_store_ext p st st' :
  build p st = Ok st' → store_ext (store st) (store st').
Proof.
  revert st. induction p as [|s p IH]; intros st H; simpl in H.
  - inv_ok H. apply store_ext_refl.
  - inv_bind H. eapply store_ext_trans; [by eapply exec_store_ext | by apply IH].
Qed.

(** ** Unsupported operand sizes (C7) *)

Lemma ins_make_bad_size n i :
  bad_size i = true → ∃ e, ins_make n i = Err e.
Proof.
  destruct i as [bc|bc|c d s size bc|c d size bc]; simpl; try done;
    intros H%negb_true_iff.
  - unfold BinOp_make, binop_mode. destruct (binop_mode_code d s); simpl; [|eauto].
    rewrite size2modifier_unsupported by done. simpl. eauto.
  - unfold UnOp_make, unop_mode. destruct (unop_mode_code d); simpl; [|eauto].
    rewrite size2modifier_unsupported by done. simpl. eauto.
Qed.

Lemma exec_emit_size st s size st' :
  stmt_size s = Some size → exec st s = Ok st' →
  ∃ i, inses st' = inses st ++ [i] ∧ bad_size i = negb (supported size).
Proof.
  destruct s as [nm|c m x y|c m x| | |l]; simpl; try done; intros [= ->] H.
  - inv_bind H. destruct a as [st1 x']. inv_bind H. destruct a as [st2 y'].
    inv_ok H. apply eval_frame in Ha as [Ha _], Ha0 as [Ha0 _].
    simpl. rewrite Ha0, Ha. eauto.
  - inv_bind H. destruct a as [st1 x']. apply eval_frame in Ha as [Ha _].
    unfold uop_ins in H. destruct (UOPS.class c); [|done]. inv_ok H.
    simpl. rewrite Ha. eauto.
Qed.

Lemma exec_size_irrelevant st s mod_ :
  is_ok (exec st s) = is_ok (exec st (with_size mod_ s)).
Proof.
  destruct s as [nm|c m x y|c m x| | |l]; simpl; try done.
  - destruct (eval x st) as [[st1 x']|]; simpl; [|done].
    by destruct (eval y st1) as [[st2 y']|].
  - destruct (eval x st) as [[st1 x']|]; simpl; [|done].
    unfold uop_ins. by destruct (UOPS.class c).
Qed.

(** C7, as stated, fails: the emit call with size 7 returns normally
    and leaves two instructions in the stream; the error is raised by
    [assemble()], and the number it carries is the length of the stream
    at that time (3), while the offending instruction is at index 1. *)
Lemma emit_unsupported_size_not_rejected :
  let p := [SBin Mov 64 (EReg 0) (EReg 1); SBin Mov 7 (EReg 0) (EReg 1); SExit] in
  (∃ st, build (take 2 p) empty_session = Ok st ∧
         inses st !! 1%nat = Some (BinOp Mov (Reg 0) (Reg 1) 7 None))
  ∧ run p = Err (InvalidSize 7 3).
Proof. split; [eexists; split|]; reflexivity. Qed.

(** C7 (amended) — an emit call with an operand size other than 8,
    16, 32 or 64 is not rejected at the call: whether the call raises
    does not depend on the size, and when it returns the instruction is
    in the stream with that size.  The error comes from [assemble()],
    whatever builder calls follow: it raises during phase 1 and returns
    no buffer. *)
Theorem emit_unsupported_size_raises_in_assemble st s size :
  stmt_size s = Some size → supported size = false →
  is_ok (exec st s) = is_ok (exec st (with_size 64 s))
  ∧ ∀ st' p st'', exec st s = Ok st' → build p st' = Ok st'' →
      (∃ i, inses st' = inses st ++ [i] ∧ bad_size i = true)
      ∧ (∃ e, phase1 st'' = Err e)
      ∧ (∃ e, assemble st'' = Err e).
Proof.
  intros Hs Hsize. split; [apply exec_size_irrelevant|].
  intros st' p st'' Hexec Hbuild.
  destruct (exec_emit_size _ _ _ _ Hs Hexec) as (i & Hi & Hbad).
  rewrite Hsize in Hbad. simpl in Hbad.
  destruct (build_inses _ _ _ Hbuild) as [suffix Hsuf].
  assert (i ∈ inses st'') as Hin.
  { rewrite Hsuf, Hi, !elem_of_app, elem_of_cons. auto. }
  destruct (ins_make_bad_size (length (inses st'')) i Hbad) as [e He].
  destruct (mapM_err _ _ _ _ Hin He) as [e' He'].
  split; [eauto|]. unfold assemble, phase1. rewrite He'. simpl. eauto.
Qed.

Lemma emit_unsupported_size_raises_in_assemble_witness :
  is_ok (exec empty_session (SUn UOPS.push 12 (EReg 3)))
  = is_ok (exec empty_session (with_size 64 (SUn UOPS.push 12 (EReg 3))))
  ∧ ∀ st' p st'',
      exec empty_session (SUn UOPS.push 12 (EReg 3)) = Ok st' →
      build p st' = Ok st'' →
      (∃ i, inses st' = inses empty_session ++ [i] ∧ bad_size i = true)
      ∧ (∃ e, phase1 st'' = Err e)
      ∧ (∃ e, assemble st'' = Err e).
Proof.
  apply (emit_unsupported_size_raises_in_assemble
           empty_session (SUn UOPS.push 12 (EReg 3)) 12); reflexivity.
Defined.

(** ** Tagging a label twice (C8) *)

(** C8, as stated, fails: the second [tag] of the same label returns
    normally; the definition site moves from 0 to 1 and the label is in
    the table twice. *)
Lemma tag_twice_no_error :
  build [SLabel "L"; STag 0%nat; SExit; STag 0%nat] empty_session
  = Ok {| inses := [Exit [0]];
          labels := [0%nat; 0%nat];
          store := [{| name := "L"; use_sites := []; def_site := Some 1%nat;
                       resolved := None |}] |}.
Proof. reflexivity. Qed.

(** C8 (amended) — [tag] on a label that was tagged before, whatever
    builder calls came in between, raises nothing: it overwrites the
    definition site with the current length of the stream and appends
    the label to the label table once more. *)
Theorem tag_again_overwrites st l st1 p st2 :
  tag l st = Ok st1 → build p st1 = Ok st2 →
  ∃ lab, store st2 !! l = Some lab
    ∧ is_Some (def_site lab)
    ∧ tag l st2 =
        Ok {| inses := inses st2;
              labels := labels st2 ++ [l];
              store := <[l := Label_tag lab (length (inses st2))]> (store st2) |}.
Proof.
  intros Htag Hbuild.
  assert (∃ lab1, store st1 !! l = Some lab1 ∧ is_Some (def_site lab1))
    as (lab1 & Hl1 & Hd1).
  { unfold tag in Htag. destruct (store st !! l) as [lab|] eqn:Hl; [|done].
    inv_ok Htag. simpl. eexists. split.
    - apply list_lookup_insert_eq. by eapply lookup_lt_Some.
    - simpl. eauto. }
  destruct (build_store_ext _ _ _ Hbuild _ _ Hl1) as (lab & Hl2 & Hd2).
  exists lab. split; [done|]. split; [auto|].
  unfold tag. by rewrite Hl2.
Qed.

Lemma tag_again_overwrites_witness :
  ∃ lab, [Label_tag (Label_init "L") 0] !! 0%nat = Some lab
    ∧ is_Some (def_site lab)
    ∧ tag 0 {| inses := [Exit_init]; labels := [0%nat];
               store := [Label_tag (Label_init "L") 0] |} =
        Ok {| inses := [Exit_init];
              labels := [0%nat] ++ [0%nat];
              store := <[0%nat := Label_tag lab 1]> [Label_tag (Label_init "L") 0] |}.
Proof.
  apply (tag_again_overwrites
           {| inses := []; labels := []; store := [Label_init "L"] |}
           0%nat _ [SExit] _ eq_refl eq_refl).
Defined.

(** ** Use sites recorded by the builder calls *)

Lemma sites_of_snoc rs r :
  sites_of (rs ++ [r]) = sites_of rs ++ replicate r (length rs).
Proof.
  unfold sites_of. rewrite imap_app, join_app. simpl.
  by rewrite app_nil_r, Nat.add_0_r.
Qed.

Lemma sites_of_lookup rs u :
  u ∈ sites_of rs ↔ ∃ r, rs !! u = Some r ∧ (0 < r)%nat.
Proof.
  induction rs as [|r rs IH] using rev_ind.
  - split; [by intros ?%elem_of_nil | by intros (? & ? & _)].
  - rewrite sites_of_snoc, elem_of_app, IH, elem_of_replicate. split.
    + intros [(r' & Hr & Hpos) | [-> Hr]].
      * exists r'. by rewrite lookup_app_l by (by eapply lookup_lt_Some).
      * exists r. rewrite lookup_app_r, Nat.sub_diag by done.
        split; [done|lia].
    + intros (r' & Hr & Hpos).
      destruct (decide (u < length rs)%nat) as [Hlt|Hge].
      * left. rewrite lookup_app_l in Hr by done. eauto.
      * right. rewrite lookup_app_r in Hr by lia.
        destruct (u - length rs)%nat eqn:Hu; simpl in Hr; [|done].
        simplify_eq. split; lia.
Qed.

Lemma sites_of_NoDup rs :
  Forall (λ r, r ≤ 1)%nat rs → NoDup (sites_of rs).
Proof.
  induction rs as [|r rs IH] using rev_ind; intros H.
  - constructor.
  - apply Forall_app in H as [Hrs Hr]. rewrite Forall_singleton in Hr.
    rewrite sites_of_snoc. apply NoDup_app. split; [by apply IH|]. split.
    + intros u (r' & Hu%lookup_lt_Some & _)%sites_of_lookup [-> _]%elem_of_replicate.
      lia.
    + destruct r as [|[|r]]; [constructor | apply NoDup_singleton | lia].
Qed.

Lemma all_uses_snoc S lab : all_uses (S ++ [lab]) = all_uses S ++ use_sites lab.
Proof. unfold all_uses. rewrite fmap_app, join_app. simpl. by rewrite app_nil_r. Qed.

Lemma all_uses_insert S l lab lab' extra :
  S !! l = Some lab → use_sites lab' = use_sites lab ++ extra →
  all_uses (<[l := lab']> S) ≡ₚ all_uses S ++ extra.
Proof.
  unfold all_uses. revert l. induction S as [|a S IH]; intros l Hl Hu; [done|].
  destruct l as [|l]; simpl in *.
  - simplify_eq. rewrite Hu, <- !app_assoc.
    apply Permutation_app_head, Permutation_app_comm.
  - rewrite <- app_assoc. apply Permutation_app_head, (IH l Hl Hu).
Qed.

Lemma Forall2_same_uses_all_uses S S' :
  Forall2 same_uses S S' → all_uses S' = all_uses S.
Proof.
  unfold all_uses. induction 1 as [|a b S S' (_ & Hu & _) _ IH]; [done|].
  simpl. rewrite Hu. f_equal. exact IH.
Qed.

Lemma all_uses_elem S u :
  u ∈ all_uses S ↔ ∃ l lab, S !! l = Some lab ∧ u ∈ use_sites lab.
Proof.
  unfold all_uses. rewrite list_elem_of_join. split.
  - intros (us & Hu & (lab & -> & (l & Hl)%list_elem_of_lookup)%list_elem_of_fmap).
    eauto.
  - intros (l & lab & Hl & Hu). exists (use_sites lab). split; [done|].
    apply list_elem_of_fmap. exists lab. split; [done|].
    apply list_elem_of_lookup. eauto.
Qed.

Lemma join_NoDup_disjoint {A} (ls : list (list A)) i j a b x :
  NoDup (mjoin ls) → ls !! i = Some a → ls !! j = Some b → i ≠ j →
  x ∈ a → x ∉ b.
Proof.
  revert i j. induction ls as [|c ls IH]; intros i j Hnd Hi Hj Hij Ha Hb; [done|].
  simpl in Hnd. apply NoDup_app in Hnd as (_ & Hdisj & Hnd).
  destruct i as [|i], j as [|j]; simpl in *; simplify_eq.
  - apply (Hdisj x Ha). apply list_elem_of_join. exists b. split; [done|].
    apply list_elem_of_lookup. eauto.
  - apply (Hdisj x Hb). apply list_elem_of_join. exists a. split; [done|].
    apply list_elem_of_lookup. eauto.
  - eapply (IH i j); eauto.
Qed.

Lemma all_uses_disjoint S l l' a b u :
  NoDup (all_uses S) → S !! l = Some a → S !! l' = Some b → l ≠ l' →
  u ∈ use_sites a → u ∉ use_sites b.
Proof.
  intros Hnd Hl Hl' Hne. eapply (join_NoDup_disjoint _ l l'); [done| | |done].
  - by rewrite list_lookup_fmap, Hl.
  - by rewrite list_lookup_fmap, Hl'.
Qed.

(** ** The builder calls keep [built] *)

Lemma Forall2_insert_self {A} (P : A → A → Prop) (l : list A) i x y :
  (∀ a, P a a) → l !! i = Some x → P x y → Forall2 P l (<[i := y]> l).
Proof.
  intros Hrefl. revert i. induction l as [|a l IH]; intros i Hi Hxy; [done|].
  destruct i as [|i]; simpl in *; simplify_eq.
  - constructor; [done|]. by apply Forall_Forall2_diag, Forall_forall.
  - constructor; [done|]. by apply IH.
Qed.

Lemma same_def_refl a : same_def a a.
Proof. done. Qed.

Lemma same_def_trans S1 S2 S3 :
  Forall2 same_def S1 S2 → Forall2 same_def S2 S3 → Forall2 same_def S1 S3.
Proof.
  intros H12 H23. eapply Forall2_trans; [|done..].
  intros a b c (? & ? & ?) (? & ? & ?). repeat split; congruence.
Qed.

Lemma eval_spec e st st' o :
  eval e st = Ok (st', o) →
  inses st' = inses st ∧ labels st' = labels st
  ∧ Forall2 same_def (store st) (store st')
  ∧ all_uses (store st')
      ≡ₚ all_uses (store st) ++ replicate (refs_in o) (length (inses st)).
Proof.
  revert st' o. induction e as [r|a IH|a IH|v|l]; intros st' o H; simpl in H.
  - inv_bind H. inv_ok H. unfold Reg_init in Ha. destruct (r <=? 17); [|done].
    inv_ok Ha. simpl. rewrite app_nil_r.
    repeat split; [|done]. by apply Forall_Forall2_diag, Forall_forall.
  - inv_bind H. destruct a0 as [st1 o1]. inv_ok H. apply (IH _ _ Ha).
  - inv_bind H. destruct a0 as [st1 o1]. inv_ok H. apply (IH _ _ Ha).
  - inv_ok H. simpl. rewrite app_nil_r.
    repeat split; [|done]. by apply Forall_Forall2_diag, Forall_forall.
  - apply ref_spec in H as (lab & Hl & -> & ->). simpl. repeat split.
    + by eapply Forall2_insert_self; [apply same_def_refl| |].
    + by eapply all_uses_insert.
Qed.

Lemma sites_snoc inses i :
  sites (inses ++ [i]) = sites inses ++ replicate (ins_refs i) (length inses).
Proof.
  unfold sites. rewrite fmap_app. change (ins_refs <$> [i]) with [ins_refs i].
  by rewrite sites_of_snoc, length_fmap.
Qed.

(** A step that appends instructions and touches the label objects
    only in their use sites. *)
Lemma built_frame st st' suffix :
  built st →
  inses st' = inses st ++ suffix →
  labels st' = labels st →
  Forall2 same_def (store st) (store st') →
  all_uses (store st') ≡ₚ sites (inses st') →
  built st'.
Proof.
  intros [B1 B2 B3 B4] Hi Hl HS Hu. split; [done|..].
  - intros l Hin. rewrite Hl in Hin.
    destruct (B2 l Hin) as (lab & d & Hlab & Hd & Hle).
    destruct (Forall2_lookup_l _ _ _ _ _ HS Hlab) as (lab' & Hlab' & _ & Hd' & _).
    exists lab', d. rewrite Hi, length_app. repeat split; [done|congruence|lia].
  - intros l lab' Hlab' Hd'. rewrite Hl.
    destruct (Forall2_lookup_r _ _ _ _ _ HS Hlab') as (lab & Hlab & _ & Hd & _).
    apply (B3 l lab Hlab). congruence.
  - intros l lab' Hlab'.
    destruct (Forall2_lookup_r _ _ _ _ _ HS Hlab') as (lab & Hlab & _ & _ & Hr).
    rewrite <- Hr. by apply (B4 l lab).
Qed.

Lemma built_empty : built empty_session.
Proof.
  split; simpl; [done|..].
  - by intros l ?%elem_of_nil.
  - by intros l lab ?.
  - by intros l lab ?.
Qed.

Lemma exec_built st s st' : built st → exec st s = Ok st' → built st'.
Proof.
  intros B H. destruct s as [nm|c m x y|c m x| | |l]; simpl in H.
  - (* Label(name) *)
    inv_ok H. destruct B as [B1 B2 B3 B4]. split; simpl.
    + rewrite all_uses_snoc. simpl. by rewrite app_nil_r.
    + intros l Hin. destruct (B2 l Hin) as (lab & d & Hlab & Hd).
      exists lab, d. by rewrite lookup_app_l by (by eapply lookup_lt_Some).
    + intros l lab Hlab Hd Hin.
      destruct (B2 l Hin) as (lab0 & d & Hlab0 & Hd0 & _).
      rewrite lookup_app_l in Hlab by (by eapply lookup_lt_Some).
      simplify_eq.
    + intros l lab Hlab. apply lookup_app_Some in Hlab as [Hlab | [_ Hlab]].
      * by eapply B4.
      * destruct (l - length (store st))%nat; simpl in Hlab; by simplify_eq.
  - (* binary emit *)
    inv_bind H. destruct a as [st1 x']. inv_bind H. destruct a as [st2 y'].
    inv_ok H.
    apply eval_spec in Ha as (Hi1 & Hl1 & HS1 & Hu1).
    apply eval_spec in Ha0 as (Hi2 & Hl2 & HS2 & Hu2).
    eapply (built_frame st _ [BinOp c x' y' m None]); simpl; [done|..].
    + by rewrite Hi2, Hi1.
    + by rewrite Hl2, Hl1.
    + by eapply same_def_trans.
    + rewrite sites_snoc, Hi2, Hi1. simpl. rewrite replicate_add, app_assoc.
      rewrite Hu2, Hu1, Hi1. by rewrite (built_uses _ B).
  - (* unary emit *)
    inv_bind H. destruct a as [st1 x'].
    apply eval_spec in Ha as (Hi1 & Hl1 & HS1 & Hu1).
    unfold uop_ins in H. destruct (UOPS.class c) as [cls|]; [|done]. inv_ok H.
    eapply (built_frame st _ [UnOp cls x' m None]); simpl; [done|..].
    + by rewrite Hi1.
    + done.
    + done.
    + rewrite sites_snoc, Hi1. simpl. rewrite Hu1. by rewrite (built_uses _ B).
  - (* exit() *)
    inv_ok H. eapply (built_frame st _ [Exit_init]); simpl; [done..| |].
    + by apply Forall_Forall2_diag, Forall_forall.
    + rewrite sites_snoc. simpl. rewrite app_nil_r. apply B.
  - (* ret() *)
    inv_ok H. eapply (built_frame st _ [Ret None]); simpl; [done..| |].
    + by apply Forall_Forall2_diag, Forall_forall.
    + rewrite sites_snoc. simpl. rewrite app_nil_r. apply B.
  - (* tag(label) *)
    unfold tag in H. destruct (store st !! l) as [lab|] eqn:Hlab; [|done].
    inv_ok H. destruct B as [B1 B2 B3 B4]. split; simpl.
    + rewrite (all_uses_insert _ _ lab _ []); [by rewrite app_nil_r|done|].
      simpl. by rewrite app_nil_r.
    + intros k Hin. destruct (decide (k = l)) as [->|Hne].
      * eexists _, _. rewrite list_lookup_insert_eq by (by eapply lookup_lt_Some).
        split; [done|]. simpl. split; [done|lia].
      * apply elem_of_app in Hin as [Hin | Hin%list_elem_of_singleton]; [|done].
        rewrite list_lookup_insert_ne by done. by apply B2.
    + intros k labk Hk Hd Hin. destruct (decide (k = l)) as [->|Hne].
      * rewrite list_lookup_insert_eq in Hk by (by eapply lookup_lt_Some).
        by simplify_eq.
      * rewrite list_lookup_insert_ne in Hk by done.
        apply elem_of_app in Hin as [Hin | Hin%list_elem_of_singleton]; [|done].
        by eapply B3.
    + intros k labk Hk. destruct (decide (k = l)) as [->|Hne].
      * rewrite list_lookup_insert_eq in Hk by (by eapply lookup_lt_Some).
        simplify_eq. simpl. by eapply B4.
      * rewrite list_lookup_insert_ne in Hk by done. by eapply B4.
Qed.

Lemma build_built p st st' : built st → build p st = Ok st' → built st'.
Proof.
  revert st. induction p as [|s p IH]; intros st B H; simpl in H.
  - by inv_ok H.
  - inv_bind H. eapply IH; [|done]. by eapply exec_built.
Qed.

(** ** Encoded instructions *)

Lemma size2modifier_ok n size m :
  size2modifier n size = Ok m → supported size = true.
Proof.
  destruct (supported size) eqn:Hs; [done|].
  by rewrite size2modifier_unsupported.
Qed.

Lemma ins_make_made n i i' :
  ins_make n i = Ok i' → made n i' ∧ ins_refs i' = ins_refs i.
Proof.
  unfold made. destruct i as [bc|bc|c d s size bc|c d size bc]; simpl; intros H.
  - by inv_ok H.
  - by inv_ok H.
  - inv_bind H. inv_ok H. simpl. by rewrite Ha.
  - inv_bind H. inv_ok H. simpl. by rewrite Ha.
Qed.

(** An encoded instruction holds at most one label reference, and then
    it is a unary instruction whose destination is that reference. *)
Lemma made_refs n i :
  made n i →
  ins_refs i = O ∨ ∃ c nm size bc, i = UnOp c (LabelRef nm) size bc.
Proof.
  unfold made. destruct i as [bc|bc|c d s size bc|c d size bc]; simpl; intros H;
    [by left..| |].
  - inv_bind H. unfold BinOp_make in Ha. inv_bind Ha.
    unfold binop_mode in Ha0.
    destruct (binop_mode_code d s) eqn:Hm; [|done]. left.
    destruct d as [?|[]|[]|?|?], s as [?|[]|[]|?|?]; simpl in *; done.
  - inv_bind H. unfold UnOp_make in Ha. inv_bind Ha. inv_bind Ha.
    destruct d as [?|[]|?|?|?]; simplify_eq/=; eauto 10.
Qed.

Lemma made_len n i : made n i → ins_len i = Ok (len_of i).
Proof.
  unfold made, len_of, bytes_of. destruct i as [bc|bc|c d s size bc|c d size bc]; simpl;
    intros H; try done.
  - by inv_ok H.
  - inv_bind H. by inv_ok H.
  - inv_bind H. by inv_ok H.
Qed.

Lemma made_bytecode n i : made n i → ∃ bc, ins_bytecode i = Ok bc.
Proof.
  unfold made. destruct i as [bc|bc|c d s size bc|c d size bc]; simpl;
    intros H; eauto.
  - inv_ok H. eauto.
  - inv_bind H. inv_ok H. eauto.
  - inv_bind H. inv_ok H. eauto.
Qed.

(** The shape of an encoded unary instruction whose destination is a
    label reference or an immediate: opcode, mode 7 OR size class, and
    a field of size/8 bytes. *)
Lemma made_jump n c d size bc :
  made n (UnOp c d size bc) → jump_dest d = true →
  supported size = true
  ∧ ∃ m field,
      size2modifier n size = Ok m
      ∧ operand_make d size = Ok (Some field)
      ∧ bc = Some ([unop_CODE c; Z.lor 7 m] ++ field)
      ∧ length field = Z.to_nat (size / 8).
Proof.
  unfold made. simpl. intros H Hd. unbind H as bc' Hmake. inv_ok H.
  unfold UnOp_make in Hmake. unbind Hmake as mode Hmode.
  unbind Hmake as f Hf.
  unfold unop_mode in Hmode.
  assert (unop_mode_code d = Some 7) as Hcode by (by destruct d).
  rewrite Hcode in Hmode. unbind Hmode as m Hm. inv_ok Hmode.
  pose proof (size2modifier_ok _ _ _ Hm) as Hs. split; [done|].
  destruct f as [field|]; [|done]. simpl in Hmake. inv_ok Hmake.
  exists m, field. repeat split; [done..|].
  assert (∃ v, pack v size = Ok (Some field)) as [v Hv].
  { destruct d; simpl in *; try done; eauto. }
  rewrite pack_supported in Hv by done. unbind Hv as b Hb. inv_ok Hv.
  unfold struct_pack in Hb. destruct (_ && _); [|done]. inv_ok Hb.
  apply length_le_bytes.
Qed.

Lemma signed2unsigned_supported x size :
  supported size = true → signed2unsigned x size = Some (x mod 2 ^ size).
Proof. intros H. each_size H; reflexivity. Qed.

(** ** Byte offsets *)

Lemma byte_offset_made n inses k :
  Forall (made n) inses → (k ≤ length inses)%nat →
  byte_offset inses k = Ok (offset_of inses k).
Proof.
  unfold offset_of. intros H. revert k.
  induction H as [|i inses Hi _ IH]; intros k Hk.
  - simpl in Hk. by replace k with O by lia.
  - destruct k as [|k]; [done|]. simpl in *.
    rewrite (made_len _ _ Hi). simpl. rewrite IH by lia. done.
Qed.

(** ** Phase 1 *)

Lemma mapM_ok_Forall2 {A B} (f : A → res B) l l' :
  mapM f l = Ok l' → Forall2 (λ x y, f x = Ok y) l l'.
Proof.
  revert l'. induction l as [|x l IH]; intros l' H; simpl in H.
  - inv_ok H. constructor.
  - unbind H as y Hy. unbind H as ys Hys. inv_ok H. constructor; auto.
Qed.

Lemma make_all_made n l l' :
  Forall2 (λ x y, ins_make n x = Ok y) l l' →
  Forall (made n) l' ∧ ins_refs <$> l' = ins_refs <$> l.
Proof.
  induction 1 as [|i i' l l' Hi _ [IH1 IH2]]; [done|].
  apply ins_make_made in Hi as [Hmade Hrefs]. split.
  - by constructor.
  - rewrite !fmap_cons. by rewrite Hrefs, IH2.
Qed.

Lemma phase1_spec st st1 :
  phase1 st = Ok st1 →
  labels st1 = labels st ∧ store st1 = store st
  ∧ length (inses st1) = length (inses st)
  ∧ Forall (made (length (inses st1))) (inses st1)
  ∧ sites (inses st1) = sites (inses st).
Proof.
  unfold phase1. intros H. unbind H as inses1 Hmap. inv_ok H. simpl.
  apply mapM_ok_Forall2 in Hmap.
  pose proof (Forall2_length _ _ _ Hmap) as Hlen.
  split; [done|]. split; [done|]. split; [done|]. rewrite <- Hlen.
  unfold sites. apply make_all_made in Hmap as [Hmade ->]. done.
Qed.

(** After phase 1 of a built session, every recorded use site is the
    index of a unary instruction whose destination is the label
    reference, and no index is recorded twice. *)
Lemma built_ready st st1 :
  built st → phase1 st = Ok st1 →
  ready (store st1) (inses st1) ∧ NoDup (all_uses (store st1)).
Proof.
  intros B H. apply phase1_spec in H as (_ & HS & _ & Hmade & Hsites).
  pose proof (built_uses _ B) as Hu. rewrite <- HS, <- Hsites in Hu.
  split; [split; [done|]|].
  - intros u Hin. rewrite Hu in Hin.
    apply sites_of_lookup in Hin as (r & Hr & Hpos).
    rewrite list_lookup_fmap in Hr.
    destruct (inses st1 !! u) as [i|] eqn:Hi; [|done]. simpl in Hr. inv_ok Hr.
    pose proof (Forall_lookup_1 _ _ _ _ Hmade Hi) as Hm.
    destruct (made_refs _ _ Hm) as [H0 | (c & nm & size & bc & ->)]; [lia|].
    by exists c, (LabelRef nm), size, bc.
  - rewrite Hu. apply sites_of_NoDup, Forall_fmap, Forall_forall.
    intros i Hin. simpl.
    pose proof (proj1 (Forall_forall _ _) Hmade i Hin) as Hm.
    destruct (made_refs _ _ Hm) as [-> | (c & nm & size & bc & ->)]; simpl; lia.
Qed.

(** ** Phase 2 *)

Lemma same_uses_refl a : same_uses a a.
Proof. done. Qed.

Lemma same_uses_trans St1 St2 St3 :
  Forall2 same_uses St1 St2 → Forall2 same_uses St2 St3 → Forall2 same_uses St1 St3.
Proof.
  intros H12 H23. eapply Forall2_trans; [|done..].
  intros a b c (? & ? & ?) (? & ? & ?). repeat split; congruence.
Qed.

Lemma phase2_spec n inses ls St :
  Forall (made n) inses →
  (∀ l, l ∈ ls → ∃ lab d, St !! l = Some lab ∧ def_site lab = Some d
                          ∧ (d ≤ length inses)%nat) →
  ∃ St', foldM (resolve_at inses) St ls = Ok St'
    ∧ Forall2 same_uses St St'
    ∧ (∀ l lab', l ∈ ls → St' !! l = Some lab' →
         ∃ d, def_site lab' = Some d
              ∧ resolved lab' = Some (Z.of_nat (offset_of inses d)))
    ∧ (∀ l, l ∉ ls → St' !! l = St !! l).
Proof.
  intros Hmade. revert St. induction ls as [|l ls IH]; intros St Hls.
  - exists St. split; [done|]. split; [by apply Forall_Forall2_diag, Forall_forall|].
    split; [by intros l lab' ?%elem_of_nil|done].
  - destruct (Hls l) as (lab & d & Hlab & Hd & Hle); [apply list_elem_of_here|].
    set (lab1 := {| name := name lab; use_sites := use_sites lab;
                    def_site := Some d;
                    resolved := Some (Z.of_nat (offset_of inses d)) |}).
    assert (resolve_at inses St l = Ok (<[l := lab1]> St)) as Hstep.
    { unfold resolve_at, Label_resolve. rewrite Hlab, Hd. simpl.
      by rewrite (byte_offset_made n). }
    assert (Forall2 same_uses St (<[l := lab1]> St)) as Hsame.
    { by eapply Forall2_insert_self; [apply same_uses_refl| |]. }
    destruct (IH (<[l := lab1]> St)) as (St' & Hfold & Hsame' & Hres & Hother).
    { intros k Hk. destruct (Hls k) as (labk & dk & Hlabk & Hdk & Hlek);
        [by apply list_elem_of_further|].
      destruct (Forall2_lookup_l _ _ _ _ _ Hsame Hlabk) as (labk' & Hk' & _ & _ & Hdk').
      exists labk', dk. repeat split; [done|congruence|done]. }
    exists St'. simpl. rewrite Hstep. simpl. split; [done|].
    split; [by eapply same_uses_trans|]. split.
    + intros k lab' Hk Hlab'. destruct (decide (k ∈ ls)) as [Hin|Hnin].
      * by eapply Hres.
      * apply elem_of_cons in Hk as [->|Hk]; [|done].
        rewrite Hother in Hlab' by done.
        rewrite list_lookup_insert_eq in Hlab' by (by eapply lookup_lt_Some).
        inv_ok Hlab'. exists d. done.
    + intros k Hk. apply not_elem_of_cons in Hk as [Hne Hk].
      rewrite Hother by done. by rewrite list_lookup_insert_ne.
Qed.

(** ** Phase 3: one use site *)

Lemma same_shape_refl i : same_shape i i.
Proof. done. Qed.

Lemma stable_refl inses : stable inses inses.
Proof. by apply Forall_Forall2_diag, Forall_forall. Qed.

Lemma stable_len inses0 inses :
  stable inses0 inses → len_of <$> inses = len_of <$> inses0.
Proof. induction 1 as [|i0 i l0 l (Hlen & _) _ IH]; [done|]. simpl. by f_equal. Qed.

Lemma stable_offset inses0 inses k :
  stable inses0 inses → offset_of inses k = offset_of inses0 k.
Proof. intros H. unfold offset_of. by rewrite (stable_len _ _ H). Qed.

Lemma stable_insert inses0 inses u i i' :
  stable inses0 inses → inses !! u = Some i → same_shape i i' →
  stable inses0 (<[u := i']> inses).
Proof.
  intros Hst Hi (Hlen & Hhead & Hsize).
  destruct (Forall2_lookup_r _ _ _ _ _ Hst Hi)
    as (i0 & Hi0 & Hlen0 & Hhead0 & Hsize0).
  rewrite <- (list_insert_id inses0 u i0) by done.
  apply Forall2_insert; [done|]. repeat split; congruence.
Qed.

Lemma ins_make_UnOp_Imm n c x size m bc :
  size2modifier n size = Ok m →
  ins_make n (UnOp c (Imm (x mod 2 ^ size)) size bc)
  = Ok (UnOp c (Imm (x mod 2 ^ size)) size
          (Some ([unop_CODE c; Z.lor 7 m]
                   ++ le_bytes (Z.to_nat (size / 8)) (x mod 2 ^ size)))).
Proof.
  intros Hm. pose proof (size2modifier_ok _ _ _ Hm) as Hs.
  cbn [ins_make]. unfold UnOp_make, unop_mode. cbn [unop_mode_code].
  change (type_is (Imm (x mod 2 ^ size)) TReg) with false.
  change (type_is (Imm (x mod 2 ^ size)) TImm) with true. cbv iota.
  rewrite Hm. cbn [mbind res_bind operand_make]. rewrite pack_ok; [done..|].
  apply Z.mod_pos_bound. each_size Hs; lia.
Qed.

Lemma rewritten_eq n R off c d size bc m :
  size2modifier n size = Ok m →
  rewritten n R off (UnOp c d size bc)
  = UnOp c (Imm ((R - Z.of_nat off) mod 2 ^ size)) size
      (Some ([unop_CODE c; Z.lor 7 m]
               ++ le_bytes (Z.to_nat (size / 8)) ((R - Z.of_nat off) mod 2 ^ size))).
Proof. intros Hm. cbn [rewritten]. by rewrite Hm. Qed.

Lemma rewritten_made n R off c d size bc m :
  size2modifier n size = Ok m →
  made n (rewritten n R off (UnOp c d size bc)).
Proof.
  intros Hm. unfold made. rewrite (rewritten_eq _ _ _ _ _ _ _ _ Hm).
  by apply ins_make_UnOp_Imm.
Qed.

Lemma rewritten_shape n R off c d size bc :
  made n (UnOp c d size bc) → jump_dest d = true →
  same_shape (UnOp c d size bc) (rewritten n R off (UnOp c d size bc)).
Proof.
  intros Hmade Hd.
  destruct (made_jump _ _ _ _ _ Hmade Hd)
    as (Hs & m & field & Hm & _ & -> & Hlen).
  rewrite (rewritten_eq _ _ _ _ _ _ _ _ Hm).
  unfold same_shape, len_of, bytes_of. cbn [ins_bytecode].
  split; [|done]. by rewrite !length_app, length_le_bytes, Hlen.
Qed.

Lemma patched_rewritten n R off i : patched n R off i → rewritten n R off i = i.
Proof. by intros (c & d & size & bc & -> & _). Qed.

(** One iteration of [Label.rewrite] at a recorded use site. *)
Lemma rewrite_use_step St inses0 inses R u :
  ready St inses → stable inses0 inses → u ∈ all_uses St →
  ∃ i i',
    inses !! u = Some i
    ∧ i' = rewritten (length inses) R (offset_of inses0 (S u)) i
    ∧ rewrite_use (Some R) inses u = Ok (<[u := i']> inses)
    ∧ patched (length inses) R (offset_of inses0 (S u)) i'
    ∧ same_shape i i'
    ∧ ready St (<[u := i']> inses).
Proof.
  intros [Hmade Hjump] Hst Hu.
  destruct (Hjump u Hu) as (c & d & size & bc & Hi & Hd).
  pose proof (Forall_lookup_1 _ _ _ _ Hmade Hi) as Hm.
  destruct (made_jump _ _ _ _ _ Hm Hd) as (Hs & m & field & Hmod & _ & Hbc & Hlen).
  eexists _, _. split; [done|]. split; [done|].
  assert (made (length inses)
            (rewritten (length inses) R (offset_of inses0 (S u)) (UnOp c d size bc)))
    as Hm' by (by eapply rewritten_made).
  split; [|split; [|split]].
  - unfold rewrite_use.
    rewrite (byte_offset_made (length inses)); [|done|by eapply lookup_lt_Some].
    cbn [mbind res_bind]. rewrite Hi. cbn [mbind res_bind].
    rewrite signed2unsigned_supported by done.
    rewrite (ins_make_UnOp_Imm _ _ _ _ _ _ Hmod). cbn [mbind res_bind].
    by rewrite (rewritten_eq _ _ _ _ _ _ _ _ Hmod), (stable_offset _ _ _ Hst).
  - by exists c, d, size, bc.
  - by apply rewritten_shape.
  - split.
    + rewrite length_insert. by apply Forall_insert.
    + intros u' Hu'. destruct (decide (u' = u)) as [->|Hne].
      * rewrite list_lookup_insert_eq by (by eapply lookup_lt_Some).
        rewrite (rewritten_eq _ _ _ _ _ _ _ _ Hmod). by eexists _, _, _, _.
      * rewrite list_lookup_insert_ne by done. auto.
Qed.

(** ** Phase 3: all use sites of all labels *)

Lemma stable_length inses0 inses : stable inses0 inses → length inses = length inses0.
Proof. intros H. symmetry. by eapply Forall2_length. Qed.

(** [Label.rewrite] for a label resolved to [R] with use sites [us]. *)
Lemma rewrite_uses St inses0 R us inses :
  ready St inses → stable inses0 inses →
  (∀ u, u ∈ us → u ∈ all_uses St) →
  ∃ inses', foldM (rewrite_use (Some R)) inses us = Ok inses'
    ∧ ready St inses' ∧ stable inses0 inses'
    ∧ (∀ u, u ∈ us →
         ∃ i, inses' !! u = Some i
              ∧ patched (length inses0) R (offset_of inses0 (S u)) i)
    ∧ (∀ u, u ∉ us → inses' !! u = inses !! u).
Proof.
  revert inses. induction us as [|u us IH]; intros inses Hready Hst Hus.
  - exists inses. split; [done|]. split; [done|]. split; [done|].
    split; [by intros u ?%elem_of_nil|done].
  - destruct (rewrite_use_step St inses0 inses R u Hready Hst)
      as (i & i' & Hi & Hi' & Hstep & Hp & Hshape & Hready');
      [apply Hus, list_elem_of_here|].
    pose proof (stable_insert _ _ _ _ _ Hst Hi Hshape) as Hst'.
    destruct (IH _ Hready' Hst') as (inses' & Hfold & Hr & Hs & Hpatched & Hrest).
    { intros k Hk. by apply Hus, list_elem_of_further. }
    exists inses'. cbn [foldM]. rewrite Hstep. cbn [mbind res_bind].
    split; [done|]. split; [done|]. split; [done|]. split.
    + intros k Hk. destruct (decide (k ∈ us)) as [Hin|Hnin]; [by apply Hpatched|].
      apply elem_of_cons in Hk as [->|Hk]; [|done].
      rewrite Hrest by done.
      rewrite list_lookup_insert_eq by (by eapply lookup_lt_Some).
      exists i'. split; [done|]. by rewrite <- (stable_length _ _ Hst).
    + intros k Hk. apply not_elem_of_cons in Hk as [Hne Hk].
      rewrite Hrest by done. by rewrite list_lookup_insert_ne.
Qed.

(** The loop of phase 3 over the label table [ls]. *)
Lemma rewrite_labels St inses0 ls inses :
  NoDup (all_uses St) →
  ready St inses → stable inses0 inses →
  (∀ l, l ∈ ls → ∃ lab R, St !! l = Some lab ∧ resolved lab = Some R) →
  ∃ inses', foldM (rewrite_at St) inses ls = Ok inses'
    ∧ ready St inses' ∧ stable inses0 inses'
    ∧ (∀ l lab R u, l ∈ ls → St !! l = Some lab → resolved lab = Some R →
         u ∈ use_sites lab →
         ∃ i, inses' !! u = Some i
              ∧ patched (length inses0) R (offset_of inses0 (S u)) i)
    ∧ (∀ u, (∀ l lab, l ∈ ls → St !! l = Some lab → u ∉ use_sites lab) →
         inses' !! u = inses !! u).
Proof.
  intros Hnd. revert inses.
  induction ls as [|l ls IH]; intros inses Hready Hst Hls.
  - exists inses. split; [done|]. split; [done|]. split; [done|].
    split; [by intros l lab R u ?%elem_of_nil|done].
  - destruct (Hls l) as (lab & R & Hlab & HR); [apply list_elem_of_here|].
    destruct (rewrite_uses St inses0 R (use_sites lab) inses Hready Hst)
      as (inses1 & Hfold1 & Hready1 & Hst1 & Hpatched1 & Hrest1).
    { intros u Hu. apply all_uses_elem. eauto. }
    destruct (IH inses1 Hready1 Hst1)
      as (inses' & Hfold & Hready' & Hst' & Hpatched & Hrest).
    { intros k Hk. by apply Hls, list_elem_of_further. }
    assert (rewrite_at St inses l = Ok inses1) as Hstep.
    { unfold rewrite_at, Label_rewrite. by rewrite Hlab, HR. }
    exists inses'. cbn [foldM]. rewrite Hstep. cbn [mbind res_bind].
    split; [done|]. split; [done|]. split; [done|]. split.
    + intros k labk Rk u Hk Hlabk HRk Hu.
      destruct (decide (k ∈ ls)) as [Hin|Hnin]; [by eapply Hpatched|].
      apply elem_of_cons in Hk as [->|Hk]; [|done]. simplify_eq.
      rewrite Hrest; [by apply Hpatched1|].
      intros l' lab' Hl' Hlab'. eapply (all_uses_disjoint St l l'); eauto.
      by intros ->.
    + intros u Hu. rewrite Hrest.
      * apply Hrest1. eapply Hu; [apply list_elem_of_here|done].
      * intros l' lab' Hl' Hlab'. eapply Hu; [by apply list_elem_of_further|done].
Qed.

(** ** Running the phases again on the session they left *)

Lemma mapM_bytecode_made n l :
  Forall (made n) l → mapM ins_bytecode l = Ok (bytes_of <$> l).
Proof.
  induction 1 as [|i l Hi _ IH]; [done|]. cbn [mapM].
  destruct (made_bytecode _ _ Hi) as [bc Hbc].
  rewrite Hbc, IH. cbn [mbind res_bind fmap list_fmap]. unfold bytes_of.
  by rewrite Hbc.
Qed.

Lemma resolve_again n inses ls St :
  Forall (made n) inses →
  (∀ l, l ∈ ls → ∃ lab d, St !! l = Some lab ∧ def_site lab = Some d
      ∧ (d ≤ length inses)%nat
      ∧ resolved lab = Some (Z.of_nat (offset_of inses d))) →
  foldM (resolve_at inses) St ls = Ok St.
Proof.
  intros Hmade. induction ls as [|l ls IH]; intros Hls; [done|].
  destruct (Hls l) as (lab & d & Hlab & Hd & Hle & HR); [apply list_elem_of_here|].
  assert (resolve_at inses St l = Ok St) as Hstep.
  { unfold resolve_at, Label_resolve. rewrite Hlab, Hd.
    rewrite (byte_offset_made n) by done. cbn [mbind res_bind].
    rewrite list_insert_id; [done|].
    rewrite Hlab. f_equal. destruct lab. simpl in *. by subst. }
  cbn [foldM]. rewrite Hstep. cbn [mbind res_bind].
  apply IH. intros k Hk. by apply Hls, list_elem_of_further.
Qed.

Lemma rewrite_uses_again St R us inses :
  ready St inses →
  (∀ u, u ∈ us → u ∈ all_uses St ∧
     ∃ i, inses !! u = Some i
          ∧ patched (length inses) R (offset_of inses (S u)) i) →
  foldM (rewrite_use (Some R)) inses us = Ok inses.
Proof.
  intros Hready. induction us as [|u us IH]; intros Hus; [done|].
  destruct (Hus u) as (Hu & i & Hi & Hp); [apply list_elem_of_here|].
  destruct (rewrite_use_step St inses inses R u Hready (stable_refl _) Hu)
    as (i1 & i' & Hi1 & Hi' & Hstep & _).
  simplify_eq. rewrite (patched_rewritten _ _ _ _ Hp) in Hstep.
  rewrite list_insert_id in Hstep by done.
  cbn [foldM]. rewrite Hstep. cbn [mbind res_bind].
  apply IH. intros k Hk. by apply Hus, list_elem_of_further.
Qed.

Lemma rewrite_labels_again St ls inses :
  ready St inses →
  (∀ l, l ∈ ls → ∃ lab R, St !! l = Some lab ∧ resolved lab = Some R
      ∧ ∀ u, u ∈ use_sites lab →
          ∃ i, inses !! u = Some i
               ∧ patched (length inses) R (offset_of inses (S u)) i) →
  foldM (rewrite_at St) inses ls = Ok inses.
Proof.
  intros Hready. induction ls as [|l ls IH]; intros Hls; [done|].
  destruct (Hls l) as (lab & R & Hlab & HR & Hp); [apply list_elem_of_here|].
  assert (rewrite_at St inses l = Ok inses) as Hstep.
  { unfold rewrite_at, Label_rewrite. rewrite Hlab, HR.
    apply (rewrite_uses_again St); [done|]. intros u Hu. split; [|by apply Hp].
    apply all_uses_elem. eauto. }
  cbn [foldM]. rewrite Hstep. cbn [mbind res_bind].
  apply IH. intros k Hk. by apply Hls, list_elem_of_further.
Qed.

(** ** Sessions reachable through the builder calls *)

(** [Label()], the emit functions, [tag] and [ref] are free-standing
    functions: a client may call them in any order, and in particular
    may call [ref] without passing its result to an emit call.  The
    facts below hold after any sequence of calls. *)

Lemma api_inv_append st st' i :
  api_inv st → inses st' = inses st ++ [i] → labels st' = labels st →
  store st' = store st → fresh i → api_inv st'.
Proof.
  intros [H1 H2 H3 H4 H5] Hi Hl HS Hf.
  split; rewrite ?Hi, ?Hl, ?HS, ?length_app; simpl.
  - intros l Hin. destruct (H1 l Hin) as (lab & d & ? & ? & ?).
    exists lab, d. repeat split; [done..|lia].
  - done.
  - done.
  - intros l lab u Hlab Hu. pose proof (H4 l lab u Hlab Hu). lia.
  - apply Forall_app. split; [done|]. by apply Forall_singleton.
Qed.

Lemma reachable_inv st : reachable st → api_inv st.
Proof.
  induction 1 as [|st nm _ IH|st c m x y _ IH|st c m x st' _ IH Hu
                  |st _ IH|st _ IH|st l st' _ IH Ht|st l st' o _ IH Hr].
  - (* nothing called *)
    split; simpl; [by intros l ?%elem_of_nil|done..|constructor].
  - (* Label(name) *)
    destruct IH as [H1 H2 H3 H4 H5]. split; cbn [new_label fst inses labels store].
    + intros l Hin. destruct (H1 l Hin) as (lab & d & Hlab & Hd).
      exists lab, d. by rewrite lookup_app_l by (by eapply lookup_lt_Some).
    + intros l lab Hlab Hd. apply lookup_app_Some in Hlab as [Hlab | [_ Hlab]].
      * by eapply H2.
      * destruct (l - length (store st))%nat; simpl in Hlab; [|done].
        inv_ok Hlab. by destruct Hd.
    + intros l lab Hlab. apply lookup_app_Some in Hlab as [Hlab | [_ Hlab]].
      * by eapply H3.
      * destruct (l - length (store st))%nat; simpl in Hlab; by simplify_eq.
    + intros l lab u Hlab Hu. apply lookup_app_Some in Hlab as [Hlab | [_ Hlab]].
      * by eapply H4.
      * destruct (l - length (store st))%nat; simpl in Hlab; [|done].
        inv_ok Hlab. by apply elem_of_nil in Hu.
    + done.
  - (* binary emit *)
    by eapply api_inv_append.
  - (* unary emit *)
    unfold uop_ins in Hu. destruct (UOPS.class c) as [cls|]; [|done]. inv_ok Hu.
    by eapply api_inv_append.
  - (* exit() *)
    by eapply api_inv_append.
  - (* ret() *)
    by eapply api_inv_append.
  - (* tag(label) *)
    unfold tag in Ht. destruct (store st !! l) as [lab|] eqn:Hlab; [|done].
    inv_ok Ht. destruct IH as [H1 H2 H3 H4 H5]. split; simpl.
    + intros k Hin. destruct (decide (k = l)) as [->|Hne].
      * eexists _, _. rewrite list_lookup_insert_eq by (by eapply lookup_lt_Some).
        split; [done|]. simpl. split; [done|lia].
      * apply elem_of_app in Hin as [Hin | Hin%list_elem_of_singleton]; [|done].
        rewrite list_lookup_insert_ne by done. by apply H1.
    + intros k labk Hk Hd. apply elem_of_app.
      destruct (decide (k = l)) as [->|Hne].
      * right. by apply list_elem_of_singleton.
      * left. rewrite list_lookup_insert_ne in Hk by done. by eapply H2.
    + intros k labk Hk. destruct (decide (k = l)) as [->|Hne].
      * rewrite list_lookup_insert_eq in Hk by (by eapply lookup_lt_Some).
        inv_ok Hk. simpl. by eapply H3.
      * rewrite list_lookup_insert_ne in Hk by done. by eapply H3.
    + intros k labk u Hk Hin. destruct (decide (k = l)) as [->|Hne].
      * rewrite list_lookup_insert_eq in Hk by (by eapply lookup_lt_Some).
        inv_ok Hk. simpl in Hin. by eapply H4.
      * rewrite list_lookup_insert_ne in Hk by done. by eapply H4.
    + done.
  - (* ref(label) *)
    unfold ref in Hr. destruct (store st !! l) as [lab|] eqn:Hlab; [|done].
    inv_ok Hr. destruct IH as [H1 H2 H3 H4 H5]. split; simpl.
    + intros k Hin. destruct (decide (k = l)) as [->|Hne].
      * destruct (H1 l Hin) as (lab0 & d & Hlab0 & Hd & Hle).
        assert (lab0 = lab) as -> by congruence.
        eexists _, d. rewrite list_lookup_insert_eq by (by eapply lookup_lt_Some).
        by split.
      * rewrite list_lookup_insert_ne by done. by apply H1.
    + intros k labk Hk Hd. destruct (decide (k = l)) as [->|Hne].
      * rewrite list_lookup_insert_eq in Hk by (by eapply lookup_lt_Some).
        inv_ok Hk. simpl in Hd. by eapply H2.
      * rewrite list_lookup_insert_ne in Hk by done. by eapply H2.
    + intros k labk Hk. destruct (decide (k = l)) as [->|Hne].
      * rewrite list_lookup_insert_eq in Hk by (by eapply lookup_lt_Some).
        inv_ok Hk. simpl. by eapply H3.
      * rewrite list_lookup_insert_ne in Hk by done. by eapply H3.
    + intros k labk u Hk Hin. destruct (decide (k = l)) as [->|Hne].
      * rewrite list_lookup_insert_eq in Hk by (by eapply lookup_lt_Some).
        inv_ok Hk. simpl in Hin.
        apply elem_of_app in Hin as [Hin | ->%list_elem_of_singleton]; [|done].
        by eapply H4.
      * rewrite list_lookup_insert_ne in Hk by done. by eapply H4.
    + done.
Qed.

(** When moreover the references are in place, the session satisfies
    the invariant [built] the assembler relies on. *)
Lemma reachable_built st : reachable st → refs_in_place st → built st.
Proof.
  intros Hr Hp. destruct (reachable_inv _ Hr) as [H1 H2 H3 H4 H5]. split.
  - done.
  - done.
  - intros l lab Hlab Hd Hin. destruct (H1 l Hin) as (lab0 & d & Hlab0 & Hd0 & _).
    congruence.
  - done.
Qed.

(** A client program only makes builder calls. *)
Lemma eval_reachable e st st' o :
  reachable st → eval e st = Ok (st', o) → reachable st'.
Proof.
  revert st st' o. induction e as [n|e IH|e IH|v|l]; intros st st' o Hr H; simpl in H.
  - unbind H as r Hr'. by inv_ok H.
  - unbind H as a Ha. destruct a as [st1 x]. inv_ok H. by eapply IH.
  - unbind H as a Ha. destruct a as [st1 x]. inv_ok H. by eapply IH.
  - by inv_ok H.
  - by eapply reach_ref.
Qed.

Lemma exec_reachable st s st' : reachable st → exec st s = Ok st' → reachable st'.
Proof.
  intros Hr H. destruct s as [nm|c m x y|c m x| | |l]; simpl in H.
  - inv_ok H. by apply reach_Label.
  - unbind H as a Ha. destruct a as [st1 x']. unbind H as b Hb. destruct b as [st2 y'].
    inv_ok H. apply reach_binop. eapply eval_reachable; [|done].
    by eapply eval_reachable.
  - unbind H as a Ha. destruct a as [st1 x'].
    eapply reach_uop; [|done]. by eapply eval_reachable.
  - inv_ok H. by apply reach_exit.
  - inv_ok H. by apply reach_ret.
  - by eapply reach_tag.
Qed.

Lemma build_reachable p st st' : reachable st → build p st = Ok st' → reachable st'.
Proof.
  revert st. induction p as [|s p IH]; intros st Hr H; simpl in H.
  - by inv_ok H.
  - unbind H as st1 H1. eapply IH; [|done]. by eapply exec_reachable.
Qed.

(** In a client program every [ref] is evaluated as an operand of the
    emit call that appends the instruction, so the session it builds
    is reachable and has its references in place. *)
Lemma build_client p st :
  build p empty_session = Ok st → reachable st ∧ refs_in_place st.
Proof.
  intros H. split.
  - exact (build_reachable p empty_session st reach_empty H).
  - apply built_uses. exact (build_built p empty_session st built_empty H).
Qed.

(** ** [assemble()] on a built session *)

(** For a session that satisfies [built], [assemble()] can only fail
    in phase 1; when phase 1 succeeds the outcome is described by
    [assembled]. *)
Lemma assemble_of_built st st1 :
  built st → phase1 st = Ok st1 →
  ∃ st3 out, assembled st st1 st3 out.
Proof.
  intros B H1.
  destruct (built_ready _ _ B H1) as [Hready Hnd].
  destruct (phase1_spec _ _ H1) as (Hl1 & HS1 & Hlen1 & Hmade1 & _).
  assert (∀ l, l ∈ labels st1 →
            ∃ lab d, store st1 !! l = Some lab ∧ def_site lab = Some d
                     ∧ (d ≤ length (inses st1))%nat) as Htable.
  { intros l Hl. rewrite Hl1 in Hl. rewrite HS1, Hlen1. by apply B. }
  destruct (phase2_spec _ _ _ _ Hmade1 Htable)
    as (St' & Hfold2 & Hsame & Hres & Hother).
  pose proof (Forall2_same_uses_all_uses _ _ Hsame) as Huses.
  assert (ready St' (inses st1)) as Hready2.
  { split; [apply Hready|]. intros u Hu. apply Hready. by rewrite <- Huses. }
  assert (∀ l, l ∈ labels st1 → ∃ lab R, St' !! l = Some lab ∧ resolved lab = Some R)
    as Hres'.
  { intros l Hl. destruct (Htable l Hl) as (lab & d & Hlab & _).
    destruct (Forall2_lookup_l _ _ _ _ _ Hsame Hlab) as (lab' & Hlab' & _).
    destruct (Hres l lab' Hl Hlab') as (d' & _ & HR). eauto. }
  destruct (rewrite_labels St' (inses st1) (labels st1) (inses st1))
    as (inses3 & Hfold3 & Hready3 & Hst3 & Hpatched & Hrest);
    [by rewrite Huses | done | apply stable_refl | done |].
  set (st3 := {| inses := inses3; labels := labels st1; store := St' |}).
  set (out := concat (bytes_of <$> inses3)).
  assert (phase4 st3 = Ok out) as H4.
  { unfold phase4. cbn [inses st3].
    by rewrite (mapM_bytecode_made _ _ (ready_made _ _ Hready3)). }
  exists st3, out. split; cbn [inses labels store st3].
  - unfold assemble. rewrite H1. cbn [mbind res_bind].
    unfold phase2. rewrite Hfold2. cbn [mbind res_bind].
    unfold phase3. cbn [inses labels store]. rewrite Hfold3.
    cbn [mbind res_bind]. fold st3. by rewrite H4.
  - unfold assemble, phase1. cbn [inses labels store st3].
    rewrite mapM_id by apply Hready3. cbn [mbind res_bind].
    unfold phase2. cbn [inses labels store].
    rewrite (resolve_again (length inses3)); [|apply Hready3|].
    + cbn [mbind res_bind]. unfold phase3. cbn [inses labels store].
      rewrite rewrite_labels_again; [|done|].
      * cbn [mbind res_bind]. fold st3. by rewrite H4.
      * intros l Hl. destruct (Hres' l Hl) as (lab & R & Hlab & HR).
        exists lab, R. split; [done|]. split; [done|]. intros u Hu.
        destruct (Hpatched l lab R u Hl Hlab HR Hu) as (i & Hi & Hp).
        exists i. split; [done|].
        by rewrite (stable_length _ _ Hst3), (stable_offset _ _ _ Hst3).
    + intros l Hl. destruct (Htable l Hl) as (lab & d & Hlab & Hd & Hle).
      destruct (Forall2_lookup_l _ _ _ _ _ Hsame Hlab)
        as (lab' & Hlab' & _ & _ & Hd').
      destruct (Hres l lab' Hl Hlab') as (d' & Hd'' & HR).
      exists lab', d'. assert (d' = d) as -> by congruence.
      rewrite (stable_length _ _ Hst3), (stable_offset _ _ _ Hst3). done.
  - done.
  - by rewrite <- HS1.
  - done.
  - done.
  - intros l lab Hl. rewrite <- Hl1 in Hl. by apply Hres.
  - intros l lab Hl Hlab. rewrite <- Hl1 in Hl.
    rewrite Hother, HS1 in Hlab by done. by eapply B.
  - intros l lab R u Hl. rewrite <- Hl1 in Hl. by apply Hpatched.
  - intros u Hu. apply Hrest. intros l lab Hl. rewrite Hl1 in Hl. by apply Hu.
Qed.

Lemma assemble_built p st st1 :
  build p empty_session = Ok st → phase1 st = Ok st1 →
  ∃ st3 out, assembled st st1 st3 out.
Proof.
  intros Hbuild H1. apply assemble_of_built; [|done].
  exact (build_built p empty_session st built_empty Hbuild).
Qed.

Lemma assemble_inv_built st st3 out :
  built st → assemble st = Ok (st3, out) →
  ∃ st1, phase1 st = Ok st1 ∧ assembled st st1 st3 out.
Proof.
  intros B Hasm.
  destruct (phase1 st) as [st1|e] eqn:H1; [|by unfold assemble in Hasm; rewrite H1 in Hasm].
  destruct (assemble_of_built _ _ B H1) as (st3' & out' & A).
  pose proof (asm_result _ _ _ _ A) as Hasm'. rewrite Hasm in Hasm'.
  inv_ok Hasm'. eauto.
Qed.

Lemma assemble_inv p st st3 out :
  build p empty_session = Ok st → assemble st = Ok (st3, out) →
  ∃ st1, phase1 st = Ok st1 ∧ assembled st st1 st3 out.
Proof.
  intros Hbuild Hasm.
  destruct (phase1 st) as [st1|e] eqn:H1; [|by unfold assemble in Hasm; rewrite H1 in Hasm].
  destruct (assemble_built _ _ _ Hbuild H1) as (st3' & out' & A).
  pose proof (asm_result _ _ _ _ A) as Hasm'. rewrite Hasm in Hasm'.
  inv_ok Hasm'. eauto.
Qed.

Lemma le_bytes_0 n : le_bytes n 0 = replicate n 0.
Proof.
  induction n as [|n IH]; [done|]. cbn [le_bytes replicate].
  change (Z.shiftr 0 8) with 0. change (Z.land 0 255) with 0. by rewrite IH.
Qed.

(** After phase 1 every recorded use site holds a unary instruction
    whose destination is the label reference, encoded with a zero
    field of size/8 bytes. *)
Lemma built_placeholders st st1 u :
  built st → phase1 st = Ok st1 → u ∈ all_uses (store st) →
  ∃ c nm size m,
    size2modifier (length (inses st1)) size = Ok m
    ∧ inses st1 !! u =
        Some (UnOp c (LabelRef nm) size
                (Some ([unop_CODE c; Z.lor 7 m] ++ replicate (Z.to_nat (size / 8)) 0))).
Proof.
  intros B H Hin. apply phase1_spec in H as (_ & HS & _ & Hmade & Hsites).
  pose proof (built_uses _ B) as Hu. rewrite <- Hsites in Hu.
  rewrite Hu in Hin. apply sites_of_lookup in Hin as (r & Hr & Hpos).
  rewrite list_lookup_fmap in Hr.
  destruct (inses st1 !! u) as [i|] eqn:Hi; [|done]. simpl in Hr. inv_ok Hr.
  pose proof (Forall_lookup_1 _ _ _ _ Hmade Hi) as Hm.
  destruct (made_refs _ _ Hm) as [H0 | (c & nm & size & bc & ->)]; [lia|].
  destruct (made_jump _ _ _ _ _ Hm eq_refl)
    as (Hs & m & field & Hmod & Hfield & -> & _).
  cbn [operand_make] in Hfield. rewrite pack_ok in Hfield; [|done|].
  - inv_ok Hfield. rewrite le_bytes_0. by exists c, nm, size, m.
  - each_size Hs; lia.
Qed.

Lemma signed_round_trip size x a b :
  0 < size → le_value b = x mod 2 ^ size →
  (signed_value size b + a) mod 2 ^ size = (x + a) mod 2 ^ size.
Proof.
  intros Hsize Hb. unfold signed_value. rewrite Hb.
  assert (2 ^ size ≠ 0) by (apply Z.pow_nonzero; lia).
  destruct (_ <? _).
  - by rewrite Z.add_mod_idemp_l.
  - replace (x mod 2 ^ size - 2 ^ size + a)
      with (x mod 2 ^ size + a + (-1) * 2 ^ size) by lia.
    rewrite Z.mod_add by done. by rewrite Z.add_mod_idemp_l.
Qed.

(** ** Relative displacements (C2) *)

(** C2 as stated fails: [ref] is a function of its own, and a use site
    is the stream length when it is called.  In [stray_jmp] the result
    of [ref(L)] is kept while a push is emitted, and only then passed
    to the jump.  The use site recorded for [L] is the push: the
    rewrite pass gives the push the immediate 3, which with the offset
    10 just after it does not give the resolved offset 6, and the jump
    keeps its zero placeholder. *)
Lemma stray_ref_patches_other_instruction :
  ∃ st st3 out lab,
    stray_jmp = Ok st ∧ reachable st
    ∧ all_uses (store st) = [0%nat] ∧ sites (inses st) = [1%nat]
    ∧ assemble st = Ok (st3, out)
    ∧ store st3 !! 0%nat = Some lab
    ∧ resolved lab = Some 6 ∧ use_sites lab = [0%nat]
    ∧ inses st3 !! 0%nat
        = Some (UnOp Push (Imm 3) 64 (Some ([14; 71] ++ [3; 0; 0; 0; 0; 0; 0; 0])))
    ∧ byte_offset (inses st3) 1 = Ok 10%nat
    ∧ (signed_value 64 [3; 0; 0; 0; 0; 0; 0; 0] + 10) mod 2 ^ 64 ≠ 6 mod 2 ^ 64
    ∧ inses st3 !! 1%nat = Some (UnOp Jmp (LabelRef "L") 8 (Some [19; 23; 0])).
Proof.
  eexists _, _, _, _. split; [reflexivity|]. split.
  { pose proof reach_empty as H.
    apply (reach_Label _ "L") in H.
    eapply (reach_ref _ 0%nat) in H; [|reflexivity].
    eapply (reach_uop _ UOPS.push 64 (Reg 0)) in H; [|reflexivity].
    eapply (reach_uop _ UOPS.jmp 8 (LabelRef "L")) in H; [|reflexivity].
    eapply (reach_tag _ 0%nat) in H; [|reflexivity].
    apply reach_exit in H. exact H. }
  split; [reflexivity|]. split; [reflexivity|]. split; [reflexivity|].
  split; [reflexivity|]. split; [reflexivity|]. split; [reflexivity|].
  split; [reflexivity|]. split; [reflexivity|]. split; [|reflexivity].
  vm_compute. discriminate.
Qed.

(** C2 (amended) — take a session left by any builder calls in which
    the references are in place: each use site recorded by [ref] is the
    position of the instruction that holds the reference.  If phase 1
    encodes it, [assemble()] returns, and for any label whose resolved
    offset is [R] and any of its use sites [u], the instruction at [u]
    is then a unary instruction with an immediate destination whose
    field of size/8 bytes follows the opcode and mode bytes.  With
    [after] the byte offset just after instruction [u], the field holds
    [(R - after) mod 2^size], which is [signed2unsigned(R - after,
    size)]; read as a signed little-endian number of that width and
    added to [after] it gives [R] modulo [2^size]. *)
Theorem relative_displacement_round_trip st st1 :
  reachable st → refs_in_place st → phase1 st = Ok st1 →
  ∃ st3 out,
    assemble st = Ok (st3, out)
    ∧ ∀ l lab R u,
        store st3 !! l = Some lab → resolved lab = Some R → u ∈ use_sites lab →
        ∃ c size mode field after,
          inses st3 !! u
            = Some (UnOp c (Imm (le_value field)) size
                      (Some ([unop_CODE c; mode] ++ field)))
          ∧ supported size = true
          ∧ Z.of_nat (length field) = size / 8
          ∧ byte_offset (inses st3) (S u) = Ok after
          ∧ le_value field = (R - Z.of_nat after) mod 2 ^ size
          ∧ signed2unsigned (R - Z.of_nat after) size = Some (le_value field)
          ∧ (signed_value size field + Z.of_nat after) mod 2 ^ size
            = R mod 2 ^ size.
Proof.
  intros Hreach Hplace H1.
  pose proof (reachable_built _ Hreach Hplace) as B.
  destruct (assemble_of_built _ _ B H1) as (st3 & out & A).
  exists st3, out. split; [apply A|].
  intros l lab R u Hlab HR Hu.
  assert (l ∈ labels st) as Hl.
  { destruct (decide (l ∈ labels st)) as [|Hnin]; [done|].
    pose proof (asm_unresolved _ _ _ _ A l lab Hnin Hlab). congruence. }
  destruct (asm_patched _ _ _ _ A l lab R u Hl Hlab HR Hu)
    as (i & Hi & c & d & size & bc & -> & Hs).
  pose proof (size2modifier_supported (length (inses st1)) size Hs) as Hm.
  rewrite (rewritten_eq _ _ _ _ _ _ _ _ Hm) in Hi.
  set (after := offset_of (inses st1) (S u)) in *.
  set (v := (R - Z.of_nat after) mod 2 ^ size) in *.
  assert (0 < size) as Hpos by (each_size Hs; lia).
  assert (le_value (le_bytes (Z.to_nat (size / 8)) v) = v) as Hval.
  { rewrite le_value_le_bytes. subst v.
    replace (8 * Z.of_nat (Z.to_nat (size / 8))) with size
      by (each_size Hs; reflexivity).
    apply Z.mod_mod, Z.pow_nonzero; lia. }
  eexists c, size, _, (le_bytes (Z.to_nat (size / 8)) v), after.
  rewrite Hval. split; [exact Hi|]. split; [done|].
  split; [|split; [|split; [|split]]].
  - rewrite length_le_bytes. each_size Hs; reflexivity.
  - rewrite (byte_offset_made (length (inses st3)));
      [|apply (asm_ready _ _ _ _ A)|by eapply lookup_lt_Some].
    by rewrite (stable_offset _ _ _ (asm_stable _ _ _ _ A)).
  - done.
  - by rewrite signed2unsigned_supported.
  - rewrite (signed_round_trip size (R - Z.of_nat after)) by done.
    f_equal. lia.
Qed.

(** A backward jump: the label is tagged before the loop body, the
    jump at the end gets the displacement -14, stored as 242. *)
Lemma relative_displacement_round_trip_witness :
  let st :=
    {| inses := [BinOp Mov (Reg 0) (Imm 1) 64 None;
                 UnOp Jmp (LabelRef "L") 8 None];
       labels := [0%nat];
       store := [{| name := "L"; use_sites := [1%nat]; def_site := Some 0%nat;
                    resolved := None |}] |} in
  ∃ st3 out,
    assemble st = Ok (st3, out)
    ∧ ∀ l lab R u,
        store st3 !! l = Some lab → resolved lab = Some R → u ∈ use_sites lab →
        ∃ c size mode field after,
          inses st3 !! u
            = Some (UnOp c (Imm (le_value field)) size
                      (Some ([unop_CODE c; mode] ++ field)))
          ∧ supported size = true
          ∧ Z.of_nat (length field) = size / 8
          ∧ byte_offset (inses st3) (S u) = Ok after
          ∧ le_value field = (R - Z.of_nat after) mod 2 ^ size
          ∧ signed2unsigned (R - Z.of_nat after) size = Some (le_value field)
          ∧ (signed_value size field + Z.of_nat after) mod 2 ^ size
            = R mod 2 ^ size.
Proof.
  intros st. eapply relative_displacement_round_trip.
  - exact (build_reachable loop_back _ _ reach_empty eq_refl).
  - vm_compute. reflexivity.
  - reflexivity.
Defined.

(** ** Length stability (C4) *)

(** C4 as stated fails: in [stray_push] the use site recorded by a
    [ref] call on its own is the push emitted next.  Phase 1 encodes
    [push r2] on three bytes; the rewrite pass replaces its register by
    an immediate and re-encodes it on four bytes with another mode
    byte. *)
Lemma stray_ref_changes_length :
  ∃ st st1 st3 out,
    stray_push = Ok st ∧ reachable st
    ∧ all_uses (store st) = [0%nat] ∧ sites (inses st) = []
    ∧ phase1 st = Ok st1 ∧ assemble st = Ok (st3, out)
    ∧ inses st1 = [UnOp Push (Reg 2) 16 (Some [14; 38; 2])]
    ∧ inses st3 = [UnOp Push (Imm 0) 16 (Some [14; 39; 0; 0])]
    ∧ byte_offset (inses st1) 1 = Ok 3%nat
    ∧ byte_offset (inses st3) 1 = Ok 4%nat.
Proof.
  eexists _, _, _, _. split; [reflexivity|]. split.
  { pose proof reach_empty as H.
    apply (reach_Label _ "L") in H.
    eapply (reach_ref _ 0%nat) in H; [|reflexivity].
    eapply (reach_uop _ UOPS.push 16 (Reg 2)) in H; [|reflexivity].
    eapply (reach_tag _ 0%nat) in H; [|reflexivity]. exact H. }
  repeat (split; [reflexivity|]). reflexivity.
Qed.

(** C4 (amended) — take a session left by any builder calls in which
    the references are in place: each use site recorded by [ref] is the
    position of the instruction that holds the reference.  If phase 1
    encodes it, [assemble()] runs to the end, and every instruction has
    after the rewrite pass the byte length it got in phase 1, with the
    same opcode byte, the same mode byte and the same operand size.
    The placeholder that phase 1 wrote at a use site is a field of
    size/8 zero bytes. *)
Theorem length_stability st st1 :
  reachable st → refs_in_place st → phase1 st = Ok st1 →
  ∃ st3 out,
    assemble st = Ok (st3, out)
    ∧ length (inses st3) = length (inses st1)
    ∧ (∀ k i1, inses st1 !! k = Some i1 →
         ∃ i3 n, inses st3 !! k = Some i3
           ∧ ins_len i1 = Ok n ∧ ins_len i3 = Ok n
           ∧ take 2 (bytes_of i3) = take 2 (bytes_of i1)
           ∧ ins_size i3 = ins_size i1)
    ∧ (∀ l lab u, store st !! l = Some lab → u ∈ use_sites lab →
         ∃ c nm size mode,
           inses st1 !! u =
             Some (UnOp c (LabelRef nm) size
                     (Some ([unop_CODE c; mode]
                              ++ replicate (Z.to_nat (size / 8)) 0)))).
Proof.
  intros Hreach Hplace H1.
  pose proof (reachable_built _ Hreach Hplace) as B.
  destruct (assemble_of_built _ _ B H1) as (st3 & out & A).
  exists st3, out. split; [apply A|].
  split; [apply stable_length, A|]. split.
  - intros k i1 Hi1.
    destruct (Forall2_lookup_l _ _ _ _ _ (asm_stable _ _ _ _ A) Hi1)
      as (i3 & Hi3 & Hlen & Hhead & Hsize).
    exists i3, (len_of i1). split; [done|].
    destruct (phase1_spec _ _ H1) as (_ & _ & _ & Hmade1 & _).
    rewrite (made_len _ _ (Forall_lookup_1 _ _ _ _ Hmade1 Hi1)).
    rewrite (made_len _ _ (Forall_lookup_1 _ _ _ _
               (ready_made _ _ (asm_ready _ _ _ _ A)) Hi3)).
    by rewrite Hlen.
  - intros l lab u Hlab Hu.
    destruct (built_placeholders st st1 u B H1) as (c & nm & size & m & _ & Hi).
    { apply all_uses_elem. eauto. }
    by exists c, nm, size, (Z.lor 7 m).
Qed.

Lemma length_stability_witness :
  let st :=
    {| inses := [UnOp Jl (LabelRef "skip") 8 None;
                 BinOp Mov (Mem (Reg 1)) (Reg 4) 64 None;
                 BinOp Add (Reg 1) (Reg 8) 64 None];
       labels := [0%nat];
       store := [{| name := "skip"; use_sites := [0%nat];
                    def_site := Some 2%nat; resolved := None |}] |} in
  let st1 :=
    {| inses := [UnOp Jl (LabelRef "skip") 8 (Some [24; 23; 0]);
                 BinOp Mov (Mem (Reg 1)) (Reg 4) 64 (Some [1; 75; 1; 4]);
                 BinOp Add (Reg 1) (Reg 8) 64 (Some [2; 64; 1; 8])];
       labels := [0%nat];
       store := [{| name := "skip"; use_sites := [0%nat];
                    def_site := Some 2%nat; resolved := None |}] |} in
  ∃ st3 out,
    assemble st = Ok (st3, out)
    ∧ length (inses st3) = length (inses st1)
    ∧ (∀ k i1, inses st1 !! k = Some i1 →
         ∃ i3 n, inses st3 !! k = Some i3
           ∧ ins_len i1 = Ok n ∧ ins_len i3 = Ok n
           ∧ take 2 (bytes_of i3) = take 2 (bytes_of i1)
           ∧ ins_size i3 = ins_size i1)
    ∧ (∀ l lab u, store st !! l = Some lab → u ∈ use_sites lab →
         ∃ c nm size mode,
           inses st1 !! u =
             Some (UnOp c (LabelRef nm) size
                     (Some ([unop_CODE c; mode]
                              ++ replicate (Z.to_nat (size / 8)) 0)))).
Proof.
  intros st st1. apply (length_stability st st1).
  - exact (build_reachable
             [SLabel "skip";
              SUn UOPS.jl 8 (ERef 0);
              SBin Mov 64 (EMem (EReg 1)) (EReg 4);
              STag 0;
              SBin Add 64 (EReg 1) (EReg 8)] _ _ reach_empty eq_refl).
  - vm_compute. reflexivity.
  - reflexivity.
Defined.

(** ** Labels that are never tagged (C3) *)

(** C3, as stated, fails: a jump to a label that is never tagged
    assembles; the buffer holds the zero placeholder. *)
Lemma undefined_label_assembles :
  run [SLabel "L"; SUn UOPS.jmp 8 (ERef 0)] = Ok [0x13; 0x17; 0].
Proof. reflexivity. Qed.

(** C3 (amended) — [assemble()] has no unresolved-symbol check: for a
    client program it raises exactly when phase-1 encoding raises.  A
    label that is referenced but never tagged is not in the label
    table; [assemble()] neither resolves nor rewrites it, and each
    instruction that refers to it keeps the zero placeholder in the
    session and hence in the returned buffer. *)
Theorem undefined_label_not_detected p st :
  build p empty_session = Ok st →
  is_ok (assemble st) = is_ok (phase1 st)
  ∧ ∀ l lab u,
      store st !! l = Some lab → def_site lab = None → u ∈ use_sites lab →
      (l ∉ labels st)
      ∧ ∀ st3 out, assemble st = Ok (st3, out) →
          (∃ lab3, store st3 !! l = Some lab3 ∧ resolved lab3 = None)
          ∧ ∃ c nm size mode,
              inses st3 !! u =
                Some (UnOp c (LabelRef nm) size
                        (Some ([unop_CODE c; mode]
                                 ++ replicate (Z.to_nat (size / 8)) 0))).
Proof.
  intros Hbuild.
  pose proof (build_built _ _ _ built_empty Hbuild) as B. split.
  - destruct (phase1 st) as [st1|e] eqn:H1.
    + destruct (assemble_built _ _ _ Hbuild H1) as (st3 & out & A).
      by rewrite (asm_result _ _ _ _ A).
    + unfold assemble. by rewrite H1.
  - intros l lab u Hlab Hdef Hu.
    pose proof (built_untagged _ B l lab Hlab Hdef) as Hnin. split; [done|].
    intros st3 out Hasm.
    destruct (assemble_inv _ _ _ _ Hbuild Hasm) as (st1 & H1 & A).
    destruct (Forall2_lookup_l _ _ _ _ _ (asm_store _ _ _ _ A) Hlab)
      as (lab3 & Hlab3 & _ & Huses & _).
    split.
    + exists lab3. split; [done|]. by eapply (asm_unresolved _ _ _ _ A).
    + destruct (built_placeholders st st1 u B H1) as (c & nm & size & m & _ & Hi).
      { apply all_uses_elem. eauto. }
      exists c, nm, size, (Z.lor 7 m).
      rewrite (asm_untouched _ _ _ _ A); [done|].
      intros l' lab' Hl' Hlab'.
      destruct (built_ready _ _ B H1) as [_ Hnd].
      destruct (phase1_spec _ _ H1) as (_ & HS1 & _).
      rewrite HS1, <- (Forall2_same_uses_all_uses _ _ (asm_store _ _ _ _ A)) in Hnd.
      eapply (all_uses_disjoint (store st3) l l'); eauto.
      * by intros ->.
      * by rewrite <- Huses.
Qed.

Lemma undefined_label_not_detected_witness :
  let st := {| inses := [UnOp Call (LabelRef "quicksort") 8 None; Exit [0]];
               labels := [];
               store := [{| name := "quicksort"; use_sites := [0%nat];
                            def_site := None; resolved := None |}] |} in
  is_ok (assemble st) = is_ok (phase1 st)
  ∧ ∀ l lab u,
      store st !! l = Some lab → def_site lab = None → u ∈ use_sites lab →
      (l ∉ labels st)
      ∧ ∀ st3 out, assemble st = Ok (st3, out) →
          (∃ lab3, store st3 !! l = Some lab3 ∧ resolved lab3 = None)
          ∧ ∃ c nm size mode,
              inses st3 !! u =
                Some (UnOp c (LabelRef nm) size
                        (Some ([unop_CODE c; mode]
                                 ++ replicate (Z.to_nat (size / 8)) 0))).
Proof.
  apply (undefined_label_not_detected
           [SLabel "quicksort"; SUn UOPS.call 8 (ERef 0); SExit] _ eq_refl).
Defined.

(** ** Determinism (C9) *)




(** ** The scenario of the label test (C5) *)

(** C5, as stated, fails: with an 8-bit [jmp] before the tag, at
    either place, the label resolves to 14, not to 9. *)
Lemma scenario_label_not_at_9 :
  (∃ st st3 out lab,
     build (scenario_near 8) empty_session = Ok st
     ∧ assemble st = Ok (st3, out)
     ∧ store st3 !! 0%nat = Some lab
     ∧ resolved lab = Some 14
     ∧ resolved lab ≠ Some 9)
  ∧ (∃ st st3 out lab,
       build (scenario_first 8) empty_session = Ok st
       ∧ assemble st = Ok (st3, out)
       ∧ store st3 !! 0%nat = Some lab
       ∧ resolved lab = Some 14
       ∧ resolved lab ≠ Some 9).
Proof.
  split;
    (eexists _, _, _, _; split; [reflexivity|]; split; [reflexivity|];
     split; [reflexivity|]; split; [reflexivity|discriminate]).
Qed.

(** C5 (amended) — in the scenario a 64-bit [mov] with a register
    destination and an immediate source takes 11 bytes (opcode, mode,
    one byte for the register, eight for the immediate) and a [jmp] of
    width [w] takes [2 + w/8].  With the [jmp] before the tag the label
    resolves to [13 + w/8], and the immediate patched into the [jmp] is
    the resolved offset minus the byte offset just after the [jmp]: 0
    when the [jmp] is right before the tag, 11 when it is first. *)
Theorem scenario_label_offset w :
  supported w = true →
  (∃ st st3 out lab after,
     build (scenario_near w) empty_session = Ok st
     ∧ assemble st = Ok (st3, out)
     ∧ (len_of <$> inses st3) = [11; Z.to_nat (2 + w / 8); 11]%nat
     ∧ store st3 !! 0%nat = Some lab
     ∧ resolved lab = Some (13 + w / 8)
     ∧ byte_offset (inses st3) 2 = Ok after
     ∧ (∃ bc, inses st3 !! 1%nat
              = Some (UnOp Jmp (Imm (13 + w / 8 - Z.of_nat after)) w bc)))
  ∧ (∃ st st3 out lab after,
       build (scenario_first w) empty_session = Ok st
       ∧ assemble st = Ok (st3, out)
       ∧ (len_of <$> inses st3) = [Z.to_nat (2 + w / 8); 11; 11]%nat
       ∧ store st3 !! 0%nat = Some lab
       ∧ resolved lab = Some (13 + w / 8)
       ∧ byte_offset (inses st3) 1 = Ok after
       ∧ (∃ bc, inses st3 !! 0%nat
                = Some (UnOp Jmp (Imm (13 + w / 8 - Z.of_nat after)) w bc))).
Proof.
  intros H. each_size H; split;
    (eexists _, _, _, _, _; split; [reflexivity|]; split; [reflexivity|];
     split; [reflexivity|]; split; [reflexivity|]; split; [reflexivity|];
     split; [reflexivity|]; eexists; reflexivity).
Qed.

Lemma scenario_label_offset_witness :
  ∃ st st3 out lab after,
    build (scenario_first 32) empty_session = Ok st
    ∧ assemble st = Ok (st3, out)
    ∧ (len_of <$> inses st3) = [Z.to_nat (2 + 32 / 8); 11; 11]%nat
    ∧ store st3 !! 0%nat = Some lab
    ∧ resolved lab = Some (13 + 32 / 8)
    ∧ byte_offset (inses st3) 1 = Ok after
    ∧ (∃ bc, inses st3 !! 0%nat
             = Some (UnOp Jmp (Imm (13 + 32 / 8 - Z.of_nat after)) 32 bc)).
Proof. apply (proj2 (scenario_label_offset 32 eq_refl)). Defined.

(** * Further properties of the encoder *)

(** ** Mode bytes *)

Lemma binop_mode_code_values dest src code :
  binop_mode_code dest src = Some code →
  code ∈ [0x0; 0x1; 0xc; 0xb; 0x3; 0xe; 0x4; 0xd; 0x5].
Proof.
  intros H.
  destruct dest as [?|[]|[]|?|?], src as [?|[]|[]|?|?]; simpl in H;
    try discriminate; inv_ok H; rewrite !elem_of_cons; tauto.
Qed.

Lemma unop_mode_code_values dest code :
  unop_mode_code dest = Some code → code ∈ [6; 7; 8].
Proof.
  intros H. destruct dest; simpl in H; try discriminate; inv_ok H;
    rewrite !elem_of_cons; tauto.
Qed.

Lemma size2modifier_values n size m :
  size2modifier n size = Ok m → m ∈ [0x10; 0x20; 0x30; 0x40].
Proof.
  intros H. pose proof (size2modifier_ok _ _ _ H) as Hs.
  each_size Hs; inv_ok H; rewrite !elem_of_cons; tauto.
Qed.

(** The parts of a mode byte computed by [binop_mode]. *)
Lemma binop_mode_parts n dest src size m :
  binop_mode n dest src size = Ok m →
  ∃ code cls,
    binop_mode_code dest src = Some code
    ∧ size2modifier n size = Ok cls
    ∧ Z.land m 0x0F = code
    ∧ Z.land m 0xF0 = cls
    ∧ m = code + cls
    ∧ is_byte m
    ∧ code ≠ 0x2.
Proof.
  unfold binop_mode. intros H.
  destruct (binop_mode_code dest src) as [code|] eqn:Hcode; [|done].
  unbind H as cls Hcls. inv_ok H. exists code, cls.
  split; [done|]. split; [done|].
  apply binop_mode_code_values in Hcode. apply size2modifier_values in Hcls.
  unfold is_byte.
  repeat (apply elem_of_cons in Hcode as [->|Hcode]);
    [..|by apply elem_of_nil in Hcode];
    (repeat (apply elem_of_cons in Hcls as [->|Hcls]);
       [..|by apply elem_of_nil in Hcls]); repeat split; done.
Qed.

(** X1 — the mode byte of a binary instruction keeps its two parts
    apart: the low nibble is the addressing-mode code selected by the
    operand kinds, the high nibble is the size class, and the byte is
    their sum; the code 0x2 never occurs. *)
Theorem binop_mode_fields n dest src size m :
  binop_mode n dest src size = Ok m →
  ∃ code cls,
    binop_mode_code dest src = Some code
    ∧ size2modifier n size = Ok cls
    ∧ Z.land m 0x0F = code
    ∧ Z.land m 0xF0 = cls
    ∧ m = code + cls
    ∧ is_byte m
    ∧ code ≠ 0x2.
Proof. apply binop_mode_parts. Qed.

Lemma binop_mode_fields_witness :
  ∃ code cls,
    binop_mode_code (Reg 3) (Mem (Reg 1)) = Some code
    ∧ size2modifier 7 64 = Ok cls
    ∧ Z.land 0x4c 0x0F = code
    ∧ Z.land 0x4c 0xF0 = cls
    ∧ 0x4c = code + cls
    ∧ is_byte 0x4c
    ∧ code ≠ 0x2.
Proof. apply (binop_mode_fields 7 (Reg 3) (Mem (Reg 1)) 64 0x4c eq_refl). Defined.

(** X2 — [unop_mode]: at a supported size a register selects code 6,
    an immediate or a label reference code 7, a memory operand code 8,
    each summed with the size class in the high nibble; a stack-relative
    memory operand selects nothing and raises, whatever the size. *)
Theorem unop_mode_table n dest size :
  supported size = true →
  ∃ cls, size2modifier n size = Ok cls
    ∧ cls ∈ [0x10; 0x20; 0x30; 0x40]
    ∧ unop_mode n dest size =
        match dest with
        | Reg _ => Ok (6 + cls)
        | Imm _ | LabelRef _ => Ok (7 + cls)
        | Mem _ => Ok (8 + cls)
        | StackMem _ => Err UnboundLocalError
        end.
Proof.
  intros H. each_size H; eexists; (split; [reflexivity|]);
    (split; [rewrite !elem_of_cons; tauto|]); by destruct dest.
Qed.

Lemma unop_mode_table_witness :
  ∃ cls, size2modifier 0 8 = Ok cls
    ∧ cls ∈ [0x10; 0x20; 0x30; 0x40]
    ∧ unop_mode 0 (LabelRef "loop") 8 = Ok (7 + cls).
Proof. apply (unop_mode_table 0 (LabelRef "loop") 8 eq_refl). Defined.

(** ** Opcodes *)

(** X3 — the opcode table is injective over all instruction classes:
    two instruction objects with the same opcode are of the same
    class, so the first byte of an encoded instruction identifies its
    operation. *)
Theorem opcode_identifies_class i j :
  ins_CODE i = ins_CODE j → class_of i = class_of j.
Proof.
  destruct i as [?|?|c ? ? ? ?|c ? ? ?], j as [?|?|c' ? ? ? ?|c' ? ? ?];
    simpl; try done; try (destruct c; done); try (destruct c'; done);
    destruct c, c'; done.
Qed.

Lemma opcode_identifies_class_witness :
  class_of (UnOp Jl (LabelRef "skip") 8 None) = class_of (UnOp Jl (Imm 6) 8 (Some [24; 23; 6])).
Proof.
  apply (opcode_identifies_class (UnOp Jl (LabelRef "skip") 8 None)
           (UnOp Jl (Imm 6) 8 (Some [24; 23; 6])) eq_refl).
Defined.

(** ** Registers *)

Lemma land_255_byte r : 0 ≤ r < 256 → Z.land r 255 = r.
Proof.
  intros H. change 255 with (Z.ones 8). rewrite Z.land_ones by lia.
  apply Z.mod_small. lia.
Qed.

(** X4 — [Reg]: an identifier above 0x11 is refused when the operand is
    built; an identifier in [0, 0x11] encodes to the single byte holding
    it, whatever the operand size (even an unsupported one); a negative
    identifier passes the assertion and makes the encoding raise. *)
Theorem Reg_encoding r size :
  (0x11 < r → Reg_init r = Err AssertionError)
  ∧ (0 ≤ r ≤ 0x11 →
       Reg_init r = Ok (Reg r) ∧ operand_make (Reg r) size = Ok (Some [r]))
  ∧ (r < 0 →
       Reg_init r = Ok (Reg r) ∧ operand_make (Reg r) size = Err StructError).
Proof.
  unfold Reg_init. repeat split.
  - intros H. destruct (Z.leb_spec r 17); [lia|done].
  - destruct (Z.leb_spec r 17); [done|lia].
  - cbn [operand_make]. unfold pack8. rewrite struct_pack_ok by lia.
    cbn [mbind res_bind le_bytes]. by rewrite land_255_byte by lia.
  - destruct (Z.leb_spec r 17); [done|lia].
  - cbn [operand_make]. unfold pack8. by rewrite struct_pack_err by lia.
Qed.

(** ** [signed2unsigned] and [pack] *)

Lemma signed_value_exact size b x :
  0 < size → le_value b = x mod 2 ^ size →
  - 2 ^ (size - 1) ≤ x < 2 ^ (size - 1) →
  signed_value size b = x.
Proof.
  intros Hsize Hb Hx. unfold signed_value. rewrite Hb.
  assert (2 ^ size = 2 * 2 ^ (size - 1)) as Hpow.
  { rewrite <- Z.pow_succ_r by lia. f_equal. lia. }
  destruct (Z_lt_le_dec x 0) as [Hneg|Hpos].
  - rewrite <- (Z.mod_add x 1) by lia. rewrite Z.mod_small by lia.
    destruct (Z.ltb_spec (x + 1 * 2 ^ size) (2 ^ (size - 1))); lia.
  - rewrite Z.mod_small by lia.
    destruct (Z.ltb_spec x (2 ^ (size - 1))); lia.
Qed.

Lemma signed_value_range size b x :
  0 < size → le_value b = x mod 2 ^ size →
  - 2 ^ (size - 1) ≤ signed_value size b < 2 ^ (size - 1).
Proof.
  intros Hsize Hb. unfold signed_value. rewrite Hb.
  assert (2 ^ size = 2 * 2 ^ (size - 1)) as Hpow.
  { rewrite <- Z.pow_succ_r by lia. f_equal. lia. }
  pose proof (Z.mod_pos_bound x (2 ^ size)) as Hbound.
  destruct (Z.ltb_spec (x mod 2 ^ size) (2 ^ (size - 1))); lia.
Qed.

(** X5 — [signed2unsigned] followed by [pack] never raises at a
    supported size: any integer is reduced into [0, 2^size) and packs
    to size/8 bytes; read back as a two's-complement number of that
    width the field gives the integer itself exactly when it lies in
    [-2^(size-1), 2^(size-1)).  At any other size [signed2unsigned]
    returns [None]. *)
Theorem signed2unsigned_pack x size :
  if supported size then
    ∃ v b,
      signed2unsigned x size = Some v
      ∧ 0 ≤ v < 2 ^ size
      ∧ pack v size = Ok (Some b)
      ∧ Z.of_nat (length b) = size / 8
      ∧ le_value b = x mod 2 ^ size
      ∧ (signed_value size b = x ↔ - 2 ^ (size - 1) ≤ x < 2 ^ (size - 1))
  else signed2unsigned x size = None.
Proof.
  destruct (supported size) eqn:Hs.
  - assert (0 < size) as Hpos by (each_size Hs; lia).
    assert (0 ≤ x mod 2 ^ size < 2 ^ size) as Hv
      by (apply Z.mod_pos_bound; lia).
    exists (x mod 2 ^ size), (le_bytes (Z.to_nat (size / 8)) (x mod 2 ^ size)).
    assert (le_value (le_bytes (Z.to_nat (size / 8)) (x mod 2 ^ size))
            = x mod 2 ^ size) as Hval.
    { rewrite le_value_le_bytes.
      replace (8 * Z.of_nat (Z.to_nat (size / 8))) with size
        by (each_size Hs; reflexivity).
      apply Z.mod_mod. lia. }
    split; [by apply signed2unsigned_supported|]. split; [done|].
    split; [by apply pack_ok|]. split.
    { rewrite length_le_bytes. each_size Hs; reflexivity. }
    split; [done|]. split.
    + intros <-. by eapply signed_value_range.
    + by apply signed_value_exact.
  - unfold supported, signed2unsigned in *.
    destruct (size =? 8), (size =? 16), (size =? 32), (size =? 64); done.
Qed.

(** ** Instruction layout *)

Lemma pack_length v size f :
  pack v size = Ok (Some f) → length f = Z.to_nat (size / 8).
Proof.
  destruct (supported size) eqn:Hs.
  - rewrite pack_supported by done. intros H. unbind H as b Hb. inv_ok H.
    unfold struct_pack in Hb. destruct (_ && _); [|done]. inv_ok Hb.
    apply length_le_bytes.
  - unfold supported, pack in *.
    destruct (size =? 8), (size =? 16), (size =? 32), (size =? 64); done.
Qed.

Lemma operand_make_width o size f :
  operand_make o size = Ok (Some f) → length f = operand_width o size.
Proof.
  destruct o as [r|[r| | |v|]| |v|nm]; simpl; try done;
    try apply pack_length; intros H; unbind H as b Hb; inv_ok H;
    unfold pack8, struct_pack in Hb; (destruct (_ && _); [|done]); by inv_ok Hb.
Qed.

Lemma iadd_ok bc x bc' : iadd bc x = Ok bc' → ∃ f, x = Some f ∧ bc' = bc ++ f.
Proof. destruct x as [f|]; simpl; [|done]. intros H. inv_ok H. eauto. Qed.

Lemma BinOp_make_layout n code dest src size bc :
  BinOp_make n code dest src size = Ok bc →
  ∃ mode fd fs,
    binop_mode n dest src size = Ok mode
    ∧ operand_make dest size = Ok (Some fd)
    ∧ operand_make src size = Ok (Some fs)
    ∧ bc = [code; mode] ++ fd ++ fs.
Proof.
  unfold BinOp_make. intros H. unbind H as mode Hmode. unbind H as d Hd.
  unbind H as bc1 Hbc1. unbind H as s Hs.
  apply iadd_ok in Hbc1 as (fd & -> & ->). apply iadd_ok in H as (fs & -> & ->).
  exists mode, fd, fs. by rewrite <- app_assoc.
Qed.

Lemma UnOp_make_layout n code dest size bc :
  UnOp_make n code dest size = Ok bc →
  ∃ mode fd,
    unop_mode n dest size = Ok mode
    ∧ operand_make dest size = Ok (Some fd)
    ∧ bc = [code; mode] ++ fd.
Proof.
  unfold UnOp_make. intros H. unbind H as mode Hmode. unbind H as d Hd.
  apply iadd_ok in H as (fd & -> & ->). by exists mode, fd.
Qed.

(** X6 — the byte length of an encoded instruction is a function of
    its operand kinds and operand size alone: opcode and mode byte,
    then one byte for a register or a register-addressed memory operand
    and size/8 bytes for an immediate, a label reference or an
    immediate-addressed memory operand ([ret] is its opcode alone).
    The instruction keeps its class, and the first byte of a [ret], a
    binary or a unary instruction is its opcode. *)
Theorem instruction_layout n i i' :
  ins_make n i = Ok i' →
  len_of i' = ins_width i
  ∧ class_of i' = class_of i
  ∧ (class_of i ≠ CExit → head (bytes_of i') = Some (ins_CODE i)).
Proof.
  unfold len_of, bytes_of.
  destruct i as [bc|bc|c d s size bc|c d size bc]; cbn [ins_make]; intros H.
  - by inv_ok H.
  - by inv_ok H.
  - unbind H as bc' Hmake. inv_ok H.
    apply BinOp_make_layout in Hmake as (mode & fd & fs & _ & Hd & Hs & ->).
    cbn [ins_bytecode ins_width]. rewrite !length_app.
    rewrite (operand_make_width _ _ _ Hd), (operand_make_width _ _ _ Hs).
    repeat split; simpl; lia.
  - unbind H as bc' Hmake. inv_ok H.
    apply UnOp_make_layout in Hmake as (mode & fd & _ & Hd & ->).
    cbn [ins_bytecode ins_width]. rewrite !length_app.
    rewrite (operand_make_width _ _ _ Hd). repeat split; simpl; lia.
Qed.

Lemma instruction_layout_witness :
  len_of (BinOp Cmp (Reg 2) (Imm 800) 16 (Some [18; 37; 2; 32; 3]))
  = ins_width (BinOp Cmp (Reg 2) (Imm 800) 16 None)
  ∧ class_of (BinOp Cmp (Reg 2) (Imm 800) 16 (Some [18; 37; 2; 32; 3]))
    = class_of (BinOp Cmp (Reg 2) (Imm 800) 16 None)
  ∧ (class_of (BinOp Cmp (Reg 2) (Imm 800) 16 None) ≠ CExit →
       head (bytes_of (BinOp Cmp (Reg 2) (Imm 800) 16 (Some [18; 37; 2; 32; 3])))
       = Some (ins_CODE (BinOp Cmp (Reg 2) (Imm 800) 16 None))).
Proof.
  apply (instruction_layout 12 (BinOp Cmp (Reg 2) (Imm 800) 16 None) _ eq_refl).
Defined.

(** ** Stack-relative memory operands *)

(** X7 — an instruction with a [StackMem] operand never encodes:
    [StackMem.make] is declared without the [size] parameter it is
    called with, and [unop_mode] has no branch for it.  [assemble()] on
    a stream that holds such an instruction raises and returns no
    buffer, so the mode codes 0x3, 0x4, 0xd and 0xe never reach an
    output. *)
Theorem StackMem_never_encodes st i :
  has_StackMem i = true → i ∈ inses st →
  (∃ e, ins_make (length (inses st)) i = Err e) ∧ (∃ e, assemble st = Err e).
Proof.
  intros Hsm Hin.
  assert (∃ e, ins_make (length (inses st)) i = Err e) as [e He].
  { destruct i as [bc|bc|c d s size bc|c d size bc]; simpl in Hsm; try done.
    - destruct (ins_make _ _) as [i'|e] eqn:H; [|eauto]. exfalso.
      cbn [ins_make] in H. unbind H as bc' Hmake.
      apply BinOp_make_layout in Hmake as (mode & fd & fs & _ & Hd & Hs & _).
      by destruct d, s.
    - destruct (ins_make _ _) as [i'|e] eqn:H; [|eauto]. exfalso.
      cbn [ins_make] in H. unbind H as bc' Hmake.
      apply UnOp_make_layout in Hmake as (mode & fd & _ & Hd & _).
      by destruct d. }
  split; [eauto|]. by eapply phase1_err.
Qed.

Lemma StackMem_never_encodes_witness :
  let st := {| inses := [BinOp Mov (Reg 0) (StackMem (Imm 8)) 64 None];
               labels := []; store := [] |} in
  (∃ e, ins_make 1 (BinOp Mov (Reg 0) (StackMem (Imm 8)) 64 None) = Err e)
  ∧ (∃ e, assemble st = Err e).
Proof.
  intros st.
  apply (StackMem_never_encodes st (BinOp Mov (Reg 0) (StackMem (Imm 8)) 64 None)
           eq_refl).
  apply list_elem_of_here.
Defined.

(** ** Memory operands *)

Lemma strip_Mem_make a size f :
  operand_make (Mem a) size = Ok (Some f) →
  operand_make a size = Ok (Some f) ∧ (type_is a TReg || type_is a TImm = true).
Proof. by destruct a. Qed.

(** X8 — a memory operand encodes to the bytes of the address it
    wraps and changes only the mode byte: when an instruction encodes,
    the same instruction with the [Mem] wrappers removed encodes too,
    to the same opcode and the same operand bytes, and the two mode
    bytes differ exactly when there was a wrapper. *)
Theorem Mem_changes_mode_only n i i' :
  ins_make n i = Ok i' →
  ∃ j', ins_make n (strip_ins i) = Ok j'
    ∧ take 1 (bytes_of j') = take 1 (bytes_of i')
    ∧ drop 2 (bytes_of j') = drop 2 (bytes_of i')
    ∧ (bytes_of j' !! 1%nat = bytes_of i' !! 1%nat ↔ has_Mem i = false).
Proof.
  destruct i as [bc|bc|c d s size bc|c d size bc]; cbn [ins_make strip_ins].
  - intros H. inv_ok H. by eexists.
  - intros H. inv_ok H. by eexists.
  - intros H. unbind H as bc' Hmake. inv_ok H.
    apply BinOp_make_layout in Hmake as (mode & fd & fs & Hmode & Hd & Hs & ->).
    apply binop_mode_parts in Hmode
      as (code & cls & Hcode & Hcls & _ & _ & -> & _ & _).
    unfold BinOp_make, binop_mode. unfold bytes_of.
    destruct d as [?|[]|[]|?|?], s as [?|[]|[]|?|?]; simpl in Hcode;
      try discriminate; inv_ok Hcode;
      cbn [strip_Mem binop_mode_code type_is type_ addr_type_is bool_decide
           decide_rel pytype_eq_dec andb] in *;
      simpl in Hd, Hs; simpl; rewrite Hcls; cbn [mbind res_bind];
      rewrite ?Hd, ?Hs; cbn [mbind res_bind iadd];
      rewrite ?Hd, ?Hs; cbn [mbind res_bind iadd];
      (eexists; split; [reflexivity|]); cbn [ins_bytecode];
      (repeat split; try done;
       apply size2modifier_values in Hcls;
       repeat (apply elem_of_cons in Hcls as [->|Hcls]);
       try (by apply elem_of_nil in Hcls); simpl; try done; intros [=]).
  - intros H. unbind H as bc' Hmake. inv_ok H.
    apply UnOp_make_layout in Hmake as (mode & fd & Hmode & Hd & ->).
    unfold UnOp_make, unop_mode in *. unfold bytes_of.
    destruct (size2modifier n size) as [cls|] eqn:Hcls;
      [|by destruct (unop_mode_code d)].
    destruct d as [?|[]|?|?|?]; simpl in Hmode; try discriminate; inv_ok Hmode;
      simpl in Hd; simpl; rewrite ?Hd; cbn [mbind res_bind iadd];
      (eexists; split; [reflexivity|]); cbn [ins_bytecode];
      (repeat split; try done;
       apply size2modifier_values in Hcls;
       repeat (apply elem_of_cons in Hcls as [->|Hcls]);
       try (by apply elem_of_nil in Hcls); simpl; try done; intros [=]).
Qed.

Lemma Mem_changes_mode_only_witness :
  ∃ j', ins_make 5 (strip_ins (BinOp Mov (Reg 3) (Mem (Reg 1)) 64 None)) = Ok j'
    ∧ take 1 (bytes_of j')
      = take 1 (bytes_of (BinOp Mov (Reg 3) (Mem (Reg 1)) 64 (Some [1; 76; 3; 1])))
    ∧ drop 2 (bytes_of j')
      = drop 2 (bytes_of (BinOp Mov (Reg 3) (Mem (Reg 1)) 64 (Some [1; 76; 3; 1])))
    ∧ (bytes_of j' !! 1%nat
       = bytes_of (BinOp Mov (Reg 3) (Mem (Reg 1)) 64 (Some [1; 76; 3; 1])) !! 1%nat
       ↔ has_Mem (BinOp Mov (Reg 3) (Mem (Reg 1)) 64 None) = false).
Proof.
  apply (Mem_changes_mode_only 5 (BinOp Mov (Reg 3) (Mem (Reg 1)) 64 None) _ eq_refl).
Defined.

(** ** The returned buffer *)

Lemma offset_of_concat l k :
  offset_of l k = length (concat (take k (bytes_of <$> l))).
Proof.
  unfold offset_of. revert k. induction l as [|i l IH]; intros k.
  - by destruct k.
  - destruct k as [|k]; [done|]. cbn [fmap list_fmap take concat sum_list].
    change (sum_list_with id ?x) with (sum_list x).
    rewrite length_app. unfold len_of at 1. f_equal. apply IH.
Qed.

Lemma concat_take_prefix {A} (ls : list (list A)) k :
  take (length (concat (take k ls))) (concat ls) = concat (take k ls).
Proof.
  revert k. induction ls as [|x ls IH]; intros k; [by destruct k|].
  destruct k as [|k]; [done|]. cbn [take concat].
  rewrite length_app, take_app_add'; [|done]. by rewrite IH.
Qed.

Lemma concat_slice {A} (ls : list (list A)) k x :
  ls !! k = Some x →
  take (length x) (drop (length (concat (take k ls))) (concat ls)) = x.
Proof.
  revert k. induction ls as [|y ls IH]; intros k Hk; [done|].
  destruct k as [|k]; simpl in Hk.
  - inv_ok Hk. change (take (length x) (x ++ concat ls) = x).
    by rewrite take_app_length.
  - cbn [take concat]. rewrite length_app, drop_app_add'; [|done]. by apply IH.
Qed.

Lemma mapM_bytecode_inv l bcs :
  mapM ins_bytecode l = Ok bcs → bcs = bytes_of <$> l.
Proof.
  revert bcs. induction l as [|i l IH]; intros bcs H; cbn [mapM] in H.
  - by inv_ok H.
  - unbind H as b Hb. unbind H as bs Hbs. inv_ok H.
    cbn [fmap list_fmap]. unfold bytes_of at 1. rewrite Hb. f_equal. by apply IH.
Qed.

Lemma assemble_out st st3 out :
  assemble st = Ok (st3, out) → out = concat (bytes_of <$> inses st3).
Proof.
  unfold assemble. intros H. unbind H as st1 H1. unbind H as st2 H2.
  unbind H as st3' H3. unbind H as bc H4. inv_ok H.
  unfold phase4 in H4. unbind H4 as bcs Hbcs. inv_ok H4.
  by rewrite (mapM_bytecode_inv _ _ Hbcs).
Qed.

(** X9 — the buffer [assemble()] returns is the concatenation of the
    instructions' bytecodes in stream order, with nothing before,
    between or after them: its length is the sum of the instruction
    lengths, and instruction [k] occupies exactly the bytes from the
    offset of [k] up to the offset of [k + 1]. *)
Theorem buffer_layout p st st3 out :
  build p empty_session = Ok st →
  assemble st = Ok (st3, out) →
  out = concat (bytes_of <$> inses st3)
  ∧ byte_offset (inses st3) (length (inses st3)) = Ok (length out)
  ∧ ∀ k i, inses st3 !! k = Some i →
      ∃ off, byte_offset (inses st3) k = Ok off
        ∧ ins_bytecode i = Ok (take (len_of i) (drop off out)).
Proof.
  intros Hbuild Hasm.
  destruct (assemble_inv _ _ _ _ Hbuild Hasm) as (st1 & H1 & A).
  pose proof (ready_made _ _ (asm_ready _ _ _ _ A)) as Hmade.
  pose proof (assemble_out _ _ _ Hasm) as ->.
  split; [done|]. split.
  - rewrite (byte_offset_made _ _ _ Hmade) by done.
    rewrite offset_of_concat, <- (length_fmap bytes_of), firstn_all. done.
  - intros k i Hi. exists (offset_of (inses st3) k).
    rewrite (byte_offset_made _ _ _ Hmade)
      by (apply Nat.lt_le_incl; by eapply lookup_lt_Some).
    split; [done|]. rewrite offset_of_concat. unfold len_of.
    rewrite concat_slice by (by rewrite list_lookup_fmap, Hi).
    destruct (made_bytecode _ _ (Forall_lookup_1 _ _ _ _ Hmade Hi)) as [bc Hbc].
    unfold bytes_of. by rewrite Hbc.
Qed.

Lemma buffer_layout_witness :
  let st3 :=
    {| inses := [UnOp Jmp (Imm 11) 8 (Some [19; 23; 11]);
                 BinOp Mov (Reg 0) (Imm 1) 64 (Some [1; 69; 0; 1; 0; 0; 0; 0; 0; 0; 0]);
                 BinOp Mov (Reg 1) (Imm 2) 64 (Some [1; 69; 1; 2; 0; 0; 0; 0; 0; 0; 0])];
       labels := [0%nat];
       store := [{| name := "L"; use_sites := [0%nat]; def_site := Some 2%nat;
                    resolved := Some 14 |}] |} in
  let out := [19; 23; 11; 1; 69; 0; 1; 0; 0; 0; 0; 0; 0; 0;
              1; 69; 1; 2; 0; 0; 0; 0; 0; 0; 0] in
  out = concat (bytes_of <$> inses st3)
  ∧ byte_offset (inses st3) (length (inses st3)) = Ok (length out)
  ∧ ∀ k i, inses st3 !! k = Some i →
      ∃ off, byte_offset (inses st3) k = Ok off
        ∧ ins_bytecode i = Ok (take (len_of i) (drop off out)).
Proof.
  apply (buffer_layout (scenario_first 8) _ _ _ eq_refl eq_refl).
Defined.

(** ** Resolved labels *)

Lemma resolved_label st st3 out l lab R :
  built st →
  assemble st = Ok (st3, out) →
  store st3 !! l = Some lab → resolved lab = Some R →
  l ∈ labels st3
  ∧ Forall (made (length (inses st3))) (inses st3)
  ∧ ∃ d, def_site lab = Some d
      ∧ (d ≤ length (inses st3))%nat
      ∧ R = Z.of_nat (offset_of (inses st3) d).
Proof.
  intros B Hasm Hlab HR.
  destruct (assemble_inv_built _ _ _ B Hasm) as (st1 & H1 & A).
  assert (l ∈ labels st) as Hl.
  { destruct (decide (l ∈ labels st)) as [|Hnin]; [done|].
    pose proof (asm_unresolved _ _ _ _ A l lab Hnin Hlab). congruence. }
  split; [by rewrite (asm_labels _ _ _ _ A)|].
  split; [apply (asm_ready _ _ _ _ A)|].
  destruct (asm_resolved _ _ _ _ A l lab Hl Hlab) as (d & Hd & HR').
  exists d. split; [done|].
  destruct (built_table _ B l Hl) as (lab0 & d0 & Hlab0 & Hd0 & Hle).
  destruct (Forall2_lookup_l _ _ _ _ _ (asm_store _ _ _ _ A) Hlab0)
    as (lab' & Hlab' & _ & _ & Hdef).
  assert (d0 = d) as -> by congruence.
  destruct (phase1_spec _ _ H1) as (_ & _ & Hlen1 & _).
  rewrite (stable_length _ _ (asm_stable _ _ _ _ A)), Hlen1.
  split; [done|]. rewrite (stable_offset _ _ _ (asm_stable _ _ _ _ A)).
  congruence.
Qed.

(** X10 — take a session left by any builder calls in which the
    references are in place (each use site recorded by [ref] is the
    position of the instruction that holds the reference), and let
    [assemble()] return.  A resolved label then points at an
    instruction boundary of the returned buffer: its resolved offset is
    the total length of the instructions before its definition site
    (the stream length at the last [tag] of the label), computed on the
    final, rewritten stream; the buffer up to that offset is exactly
    those instructions. *)
Theorem label_offset_correct st st3 out l lab R :
  reachable st → refs_in_place st →
  assemble st = Ok (st3, out) →
  store st3 !! l = Some lab → resolved lab = Some R →
  ∃ d, def_site lab = Some d
    ∧ (d ≤ length (inses st3))%nat
    ∧ 0 ≤ R
    ∧ byte_offset (inses st3) d = Ok (Z.to_nat R)
    ∧ take (Z.to_nat R) out = concat (take d (bytes_of <$> inses st3)).
Proof.
  intros Hreach Hplace Hasm Hlab HR.
  destruct (resolved_label _ _ _ _ _ _ (reachable_built _ Hreach Hplace)
              Hasm Hlab HR)
    as (_ & Hmade & d & Hd & Hle & ->).
  exists d. rewrite Nat2Z.id. split; [done|]. split; [done|]. split; [lia|].
  split; [by apply (byte_offset_made (length (inses st3)))|].
  rewrite (assemble_out _ _ _ Hasm), offset_of_concat.
  apply concat_take_prefix.
Qed.

Lemma label_offset_correct_witness :
  let st3 :=
    {| inses := [UnOp Jmp (Imm 11) 8 (Some [19; 23; 11]);
                 BinOp Mov (Reg 0) (Imm 1) 64 (Some [1; 69; 0; 1; 0; 0; 0; 0; 0; 0; 0]);
                 BinOp Mov (Reg 1) (Imm 2) 64 (Some [1; 69; 1; 2; 0; 0; 0; 0; 0; 0; 0])];
       labels := [0%nat];
       store := [{| name := "L"; use_sites := [0%nat]; def_site := Some 2%nat;
                    resolved := Some 14 |}] |} in
  let out := [19; 23; 11; 1; 69; 0; 1; 0; 0; 0; 0; 0; 0; 0;
              1; 69; 1; 2; 0; 0; 0; 0; 0; 0; 0] in
  ∃ d, Some 2%nat = Some d
    ∧ (d ≤ length (inses st3))%nat
    ∧ 0 ≤ 14
    ∧ byte_offset (inses st3) d = Ok (Z.to_nat 14)
    ∧ take (Z.to_nat 14) out = concat (take d (bytes_of <$> inses st3)).
Proof.
  intros st3 out.
  apply (label_offset_correct _ st3 out 0%nat
           {| name := "L"; use_sites := [0%nat]; def_site := Some 2%nat;
              resolved := Some 14 |} 14
           (build_reachable (scenario_first 8) _ _ reach_empty eq_refl)).
  - vm_compute. reflexivity.
  - reflexivity.
  - reflexivity.
  - reflexivity.
Defined.

(** ** Displacements *)

Lemma resolved_use_site st st3 out l lab R u :
  built st →
  assemble st = Ok (st3, out) →
  store st3 !! l = Some lab → resolved lab = Some R → u ∈ use_sites lab →
  ∃ c size m,
    supported size = true
    ∧ size2modifier (length (inses st3)) size = Ok m
    ∧ inses st3 !! u =
        Some (UnOp c
                (Imm ((R - Z.of_nat (offset_of (inses st3) (S u))) mod 2 ^ size))
                size
                (Some ([unop_CODE c; Z.lor 7 m]
                         ++ le_bytes (Z.to_nat (size / 8))
                              ((R - Z.of_nat (offset_of (inses st3) (S u)))
                                 mod 2 ^ size)))).
Proof.
  intros B Hasm Hlab HR Hu.
  destruct (assemble_inv_built _ _ _ B Hasm) as (st1 & H1 & A).
  assert (l ∈ labels st) as Hl.
  { destruct (decide (l ∈ labels st)) as [|Hnin]; [done|].
    pose proof (asm_unresolved _ _ _ _ A l lab Hnin Hlab). congruence. }
  destruct (asm_patched _ _ _ _ A l lab R u Hl Hlab HR Hu)
    as (i & Hi & c & d & size & bc & -> & Hs).
  pose proof (size2modifier_supported (length (inses st1)) size Hs) as Hm.
  rewrite (rewritten_eq _ _ _ _ _ _ _ _ Hm) in Hi.
  rewrite <- (stable_length _ _ (asm_stable _ _ _ _ A)) in Hm.
  rewrite <- (stable_offset _ _ _ (asm_stable _ _ _ _ A)) in Hi.
  eauto 10.
Qed.

(** X11 — take a session left by any builder calls in which the
    references are in place (each use site recorded by [ref] is the
    position of the instruction that holds the reference), and let
    [assemble()] return.  The displacement patched into a jump or call
    is then exact precisely when it fits the instruction's width: the
    operand field, read as a signed number of [size] bits, equals the
    resolved offset minus the offset just after the instruction if and
    only if that difference lies in [-2^(size-1), 2^(size-1)).  Outside
    that range nothing raises and the field holds the difference
    reduced modulo 2^size. *)
Theorem displacement_exact_iff_in_range st st3 out l lab R u :
  reachable st → refs_in_place st →
  assemble st = Ok (st3, out) →
  store st3 !! l = Some lab → resolved lab = Some R → u ∈ use_sites lab →
  ∃ c size mode field after,
    inses st3 !! u
      = Some (UnOp c (Imm (le_value field)) size
                (Some ([unop_CODE c; mode] ++ field)))
    ∧ byte_offset (inses st3) (S u) = Ok after
    ∧ le_value field = (R - Z.of_nat after) mod 2 ^ size
    ∧ (signed_value size field = R - Z.of_nat after
       ↔ - 2 ^ (size - 1) ≤ R - Z.of_nat after < 2 ^ (size - 1)).
Proof.
  intros Hreach Hplace Hasm Hlab HR Hu.
  pose proof (reachable_built _ Hreach Hplace) as B.
  destruct (resolved_use_site _ _ _ _ _ _ _ B Hasm Hlab HR Hu)
    as (c & size & m & Hs & Hm & Hi).
  destruct (resolved_label _ _ _ _ _ _ B Hasm Hlab HR) as (_ & Hmade & _).
  set (after := offset_of (inses st3) (S u)) in *.
  set (v := (R - Z.of_nat after) mod 2 ^ size) in *.
  assert (0 < size) as Hpos by (each_size Hs; lia).
  assert (le_value (le_bytes (Z.to_nat (size / 8)) v) = v) as Hval.
  { rewrite le_value_le_bytes. subst v.
    replace (8 * Z.of_nat (Z.to_nat (size / 8))) with size
      by (each_size Hs; reflexivity).
    apply Z.mod_mod, Z.pow_nonzero; lia. }
  eexists c, size, _, (le_bytes (Z.to_nat (size / 8)) v), after.
  rewrite Hval. split; [exact Hi|]. split; [|split; [done|split]].
  - apply (byte_offset_made (length (inses st3))); [done|].
    by eapply lookup_lt_Some.
  - intros <-. by eapply signed_value_range.
  - by apply signed_value_exact.
Qed.

(** A backward jump on 8 bits: the difference is -14, in range, and the
    field 242 read as signed is -14. *)
Lemma displacement_exact_iff_in_range_witness :
  let st3 :=
    {| inses := [BinOp Mov (Reg 0) (Imm 1) 64 (Some [1; 69; 0; 1; 0; 0; 0; 0; 0; 0; 0]);
                 UnOp Jmp (Imm 242) 8 (Some [19; 23; 242])];
       labels := [0%nat];
       store := [{| name := "L"; use_sites := [1%nat]; def_site := Some 0%nat;
                    resolved := Some 0 |}] |} in
  ∃ c size mode field after,
    inses st3 !! 1%nat
      = Some (UnOp c (Imm (le_value field)) size
                (Some ([unop_CODE c; mode] ++ field)))
    ∧ byte_offset (inses st3) 2 = Ok after
    ∧ le_value field = (0 - Z.of_nat after) mod 2 ^ size
    ∧ (signed_value size field = 0 - Z.of_nat after
       ↔ - 2 ^ (size - 1) ≤ 0 - Z.of_nat after < 2 ^ (size - 1)).
Proof.
  intros st3.
  apply (displacement_exact_iff_in_range _ st3
           [1; 69; 0; 1; 0; 0; 0; 0; 0; 0; 0; 19; 23; 242] 0%nat
           {| name := "L"; use_sites := [1%nat]; def_site := Some 0%nat;
              resolved := Some 0 |} 0 1%nat
           (build_reachable loop_back _ _ reach_empty eq_refl)).
  - vm_compute. reflexivity.
  - reflexivity.
  - reflexivity.
  - reflexivity.
  - apply list_elem_of_here.
Defined.

Lemma offset_of_S l k i :
  l !! k = Some i → offset_of l (S k) = (offset_of l k + len_of i)%nat.
Proof.
  intros Hk. unfold offset_of.
  rewrite (take_S_r _ _ (len_of i)) by (by rewrite list_lookup_fmap, Hk).
  rewrite sum_list_with_app. simpl. lia.
Qed.

Lemma offset_of_mono l k k' :
  (k ≤ k')%nat → (offset_of l k ≤ offset_of l k')%nat.
Proof.
  induction 1 as [|k' _ IH]; [done|].
  destruct (l !! k') as [i|] eqn:Hk'.
  - rewrite (offset_of_S _ _ _ Hk'). lia.
  - unfold offset_of in *. apply lookup_ge_None in Hk'.
    rewrite (take_ge _ (S k')) by (rewrite length_fmap; lia).
    by rewrite (take_ge _ k') in IH by (by rewrite length_fmap).
Qed.

(** X12 — take a session left by any builder calls in which the
    references are in place (each use site recorded by [ref] is the
    position of the instruction that holds the reference), and let
    [assemble()] return.  The sign of a displacement then follows the
    direction of the reference: a label defined after the referencing
    instruction (forward reference) gives a difference of zero or more,
    zero when the label is tagged right after the instruction; a label
    defined at or before it (backward reference) gives a negative
    difference. *)
Theorem displacement_direction st st3 out l lab R u :
  reachable st → refs_in_place st →
  assemble st = Ok (st3, out) →
  store st3 !! l = Some lab → resolved lab = Some R → u ∈ use_sites lab →
  ∃ d after,
    def_site lab = Some d
    ∧ byte_offset (inses st3) (S u) = Ok after
    ∧ ((u < d)%nat ↔ 0 ≤ R - Z.of_nat after)
    ∧ (d = S u → R - Z.of_nat after = 0).
Proof.
  intros Hreach Hplace Hasm Hlab HR Hu.
  pose proof (reachable_built _ Hreach Hplace) as B.
  destruct (resolved_use_site _ _ _ _ _ _ _ B Hasm Hlab HR Hu)
    as (c & size & m & Hs & Hm & Hi).
  destruct (resolved_label _ _ _ _ _ _ B Hasm Hlab HR)
    as (_ & Hmade & d & Hd & Hle & ->).
  exists d, (offset_of (inses st3) (S u)). split; [done|]. split.
  { apply (byte_offset_made (length (inses st3))); [done|].
    by eapply lookup_lt_Some. }
  pose proof (offset_of_S _ _ _ Hi) as HS.
  assert (0 < len_of (UnOp c
            (Imm ((Z.of_nat (offset_of (inses st3) d)
                   - Z.of_nat (offset_of (inses st3) (S u))) mod 2 ^ size)) size
            (Some ([unop_CODE c; Z.lor 7 m]
                     ++ le_bytes (Z.to_nat (size / 8))
                          ((Z.of_nat (offset_of (inses st3) d)
                            - Z.of_nat (offset_of (inses st3) (S u)))
                             mod 2 ^ size)))))%nat as Hlen.
  { unfold len_of, bytes_of. cbn [ins_bytecode]. rewrite length_app. simpl. lia. }
  split; [split|].
  - intros Hlt. pose proof (offset_of_mono (inses st3) (S u) d). lia.
  - intros Hge. destruct (decide (u < d)%nat) as [|Hnlt]; [done|].
    pose proof (offset_of_mono (inses st3) d u). lia.
  - intros ->. lia.
Qed.

(** A backward jump: the label is defined at 0, the jump is
    instruction 1, and the difference 0 - 14 is negative. *)
Lemma displacement_direction_witness :
  let st3 :=
    {| inses := [BinOp Mov (Reg 0) (Imm 1) 64 (Some [1; 69; 0; 1; 0; 0; 0; 0; 0; 0; 0]);
                 UnOp Jmp (Imm 242) 8 (Some [19; 23; 242])];
       labels := [0%nat];
       store := [{| name := "L"; use_sites := [1%nat]; def_site := Some 0%nat;
                    resolved := Some 0 |}] |} in
  ∃ d after,
    Some 0%nat = Some d
    ∧ byte_offset (inses st3) 2 = Ok after
    ∧ ((1 < d)%nat ↔ 0 ≤ 0 - Z.of_nat after)
    ∧ (d = 2%nat → 0 - Z.of_nat after = 0).
Proof.
  intros st3.
  apply (displacement_direction _ st3
           [1; 69; 0; 1; 0; 0; 0; 0; 0; 0; 0; 19; 23; 242] 0%nat
           {| name := "L"; use_sites := [1%nat]; def_site := Some 0%nat;
              resolved := Some 0 |} 0 1%nat
           (build_reachable loop_back _ _ reach_empty eq_refl)).
  - vm_compute. reflexivity.
  - reflexivity.
  - reflexivity.
  - reflexivity.
  - apply list_elem_of_here.
Defined.

(** ** Which builder calls raise *)

Lemma eval_outcome e st :
  match eval e st with
  | Ok (st', _) =>
      expr_ok (length (store st)) e = true
      ∧ length (store st') = length (store st)
  | Err err =>
      expr_ok (length (store st)) e = false
      ∧ (err = AssertionError ∨ err = NameError)
  end.
Proof.
  induction e as [r|a IH|a IH|v|l]; cbn [eval expr_ok].
  - unfold Reg_init. by destruct (r <=? 17); simpl; auto.
  - destruct (eval a st) as [[st' o]|err]; simpl; auto.
  - destruct (eval a st) as [[st' o]|err]; simpl; auto.
  - done.
  - unfold ref. destruct (store st !! l) as [lab|] eqn:Hl; simpl.
    + apply lookup_lt_Some in Hl. rewrite length_insert.
      split; [by apply bool_decide_eq_true|done].
    + apply lookup_ge_None in Hl.
      split; [apply bool_decide_eq_false; lia|auto].
Qed.

(** X13 — what a builder call checks: it raises exactly when an
    operand names a register above 0x11 (AssertionError), a label
    variable is unbound (NameError) or the mnemonic is [nop], for which
    no class exists (KeyError).  Operand sizes and operand kinds are
    never looked at, and [Label(...)], [exit()] and [ret()] always
    return. *)
Theorem builder_call_outcome st s :
  is_ok (exec st s) = stmt_ok (length (store st)) s
  ∧ ∀ err, exec st s = Err err →
      err = AssertionError ∨ err = NameError ∨ err = KeyError.
Proof.
  destruct s as [nm|c m x y|c m x| | |l]; cbn [exec stmt_ok].
  - split; [done|]. by intros err.
  - pose proof (eval_outcome x st) as Hx.
    destruct (eval x st) as [[st1 x']|e1]; cbn [mbind res_bind].
    + destruct Hx as [-> Hlen]. pose proof (eval_outcome y st1) as Hy.
      rewrite Hlen in Hy.
      destruct (eval y st1) as [[st2 y']|e2]; cbn [mbind res_bind].
      * destruct Hy as [-> _]. split; [done|]. by intros err.
      * destruct Hy as [-> He]. split; [done|]. intros err [= <-]. tauto.
    + destruct Hx as [-> He]. split; [done|]. intros err [= <-]. tauto.
  - pose proof (eval_outcome x st) as Hx.
    destruct (eval x st) as [[st1 x']|e1]; cbn [mbind res_bind].
    + destruct Hx as [-> _]. unfold uop_ins.
      destruct (UOPS.class c); split; try done.
      intros err [= <-]. tauto.
    + destruct Hx as [-> He]. split; [done|]. intros err [= <-]. tauto.
  - split; [done|]. by intros err.
  - split; [done|]. by intros err.
  - unfold tag. destruct (store st !! l) as [lab|] eqn:Hl; simpl.
    + apply lookup_lt_Some in Hl. split; [|by intros err].
      symmetry. by apply bool_decide_eq_true.
    + apply lookup_ge_None in Hl. split; [|intros err [= <-]; tauto].
      symmetry. apply bool_decide_eq_false. lia.
Qed.

(** ** Which errors [assemble()] raises *)

Lemma mapM_err_inv {A B} (f : A → res B) l e :
  mapM f l = Err e → ∃ x, x ∈ l ∧ f x = Err e.
Proof.
  induction l as [|x l IH]; cbn [mapM]; [done|].
  destruct (f x) as [y|e'] eqn:Hx; cbn [mbind res_bind].
  - destruct (mapM f l) as [ys|e'] eqn:Hl; cbn [mbind res_bind]; [done|].
    intros [= <-]. destruct (IH eq_refl) as (x' & Hin & Hx').
    exists x'. split; [by apply list_elem_of_further|done].
  - intros [= <-]. exists x. split; [apply list_elem_of_here|done].
Qed.

Lemma pack_errors v size e : pack v size = Err e → e = StructError.
Proof.
  unfold pack, pack64, pack32, pack16, pack8, struct_pack.
  repeat (destruct (_ =? _)); try done;
    destruct (_ && _); cbn [mbind res_bind]; congruence.
Qed.

Lemma operand_make_errors o size e :
  operand_make o size = Err e → e = StructError ∨ e = TypeError.
Proof.
  destruct o as [r|[r| | |v|]| |v|nm]; cbn [operand_make]; try done;
    try (intros [= <-]; by right);
    try (intros H%pack_errors; by left);
    unfold pack8, struct_pack; destruct (_ && _); cbn [mbind res_bind];
    try done; intros [= <-]; by left.
Qed.

Lemma ins_make_errors n i e :
  ins_make n i = Err e →
  e = UnboundLocalError ∨ e = StructError ∨ e = TypeError
  ∨ ∃ size, e = InvalidSize size n ∧ ins_size i = Some size
            ∧ supported size = false.
Proof.
  assert (∀ size cls, size2modifier n size = Err cls →
            cls = InvalidSize size n ∧ supported size = false) as Hsz.
  { intros size cls H. destruct (supported size) eqn:Hs.
    - by rewrite size2modifier_supported in H.
    - rewrite size2modifier_unsupported in H by done. by inv_ok H. }
  destruct i as [bc|bc|c d s size bc|c d size bc]; cbn [ins_make ins_size];
    try done.
  - unfold BinOp_make, binop_mode.
    destruct (binop_mode_code d s); [|intros [= <-]; tauto].
    destruct (size2modifier n size) as [m|cls] eqn:Hm; cbn [mbind res_bind].
    + destruct (operand_make d size) as [[fd|]|ed] eqn:Hd; cbn [mbind res_bind iadd];
        [| intros [= <-]; tauto
         | intros [= <-]; apply operand_make_errors in Hd; tauto].
      destruct (operand_make s size) as [[fs|]|es] eqn:Hs; cbn [mbind res_bind iadd];
        [ done
        | intros [= <-]; tauto
        | intros [= <-]; apply operand_make_errors in Hs; tauto].
    + intros [= <-]. destruct (Hsz _ _ Hm) as [-> ?]. eauto 10.
  - unfold UnOp_make, unop_mode.
    destruct (unop_mode_code d); [|intros [= <-]; tauto].
    destruct (size2modifier n size) as [m|cls] eqn:Hm; cbn [mbind res_bind].
    + destruct (operand_make d size) as [[fd|]|ed] eqn:Hd; cbn [mbind res_bind iadd];
        [ done
        | intros [= <-]; tauto
        | intros [= <-]; apply operand_make_errors in Hd; tauto].
    + intros [= <-]. destruct (Hsz _ _ Hm) as [-> ?]. eauto 10.
Qed.

(** X14 — when [assemble()] raises on a client program, the exception
    comes from the phase-1 encoding of one instruction of the stream
    and is one of four: an operand pair or operand that selects no
    addressing mode (UnboundLocalError), a register or immediate that
    does not fit its field (struct.error), an operand that cannot be
    encoded (TypeError), or an unsupported size.  The invalid-size
    exception carries the offending size and the length of the whole
    stream, not the index of the instruction.  Label resolution and
    rewriting never raise. *)
Theorem assemble_errors p st e :
  build p empty_session = Ok st →
  assemble st = Err e →
  ∃ i, i ∈ inses st
    ∧ ins_make (length (inses st)) i = Err e
    ∧ (e = UnboundLocalError ∨ e = StructError ∨ e = TypeError
       ∨ ∃ size, e = InvalidSize size (length (inses st))
                 ∧ ins_size i = Some size ∧ supported size = false).
Proof.
  intros Hbuild Hasm.
  destruct (phase1 st) as [st1|e1] eqn:H1.
  - destruct (assemble_built _ _ _ Hbuild H1) as (st3 & out & A).
    rewrite (asm_result _ _ _ _ A) in Hasm. done.
  - unfold assemble in Hasm. rewrite H1 in Hasm. inv_ok Hasm.
    unfold phase1 in H1.
    destruct (mapM _ _) as [l|e'] eqn:Hmap; [done|]. inv_ok H1.
    destruct (mapM_err_inv _ _ _ Hmap) as (i & Hin & Hi).
    exists i. split; [done|]. split; [done|]. by eapply ins_make_errors.
Qed.

Lemma assemble_errors_witness :
  ∃ i, i ∈ [BinOp Mov (Reg 0) (Reg 1) 64 None; BinOp Mov (Reg 0) (Reg 1) 7 None;
            Exit [0]]
    ∧ ins_make 3 i = Err (InvalidSize 7 3)
    ∧ (InvalidSize 7 3 = UnboundLocalError ∨ InvalidSize 7 3 = StructError
       ∨ InvalidSize 7 3 = TypeError
       ∨ ∃ size, InvalidSize 7 3 = InvalidSize size 3
                 ∧ ins_size i = Some size ∧ supported size = false).
Proof.
  apply (assemble_errors
           [SBin Mov 64 (EReg 0) (EReg 1); SBin Mov 7 (EReg 0) (EReg 1); SExit]
           _ _ eq_refl eq_refl).
Defined.

(** ** The buffer is a byte string *)

Lemma foldM_invariant {A St} (f : St → A → res St) (P : St → Prop) l s s' :
  (∀ s x s', P s → f s x = Ok s' → P s') →
  P s → foldM f s l = Ok s' → P s'.
Proof.
  intros Hstep. revert s. induction l as [|x l IH]; intros s Hs H; cbn [foldM] in H.
  - by inv_ok H.
  - unbind H as s1 H1. eauto.
Qed.

Lemma pack_bytes v size f : pack v size = Ok (Some f) → Forall is_byte f.
Proof.
  destruct (supported size) eqn:Hs.
  - rewrite pack_supported by done. intros H. unbind H as b Hb. inv_ok H.
    unfold struct_pack in Hb. destruct (_ && _); [|done]. inv_ok Hb.
    apply le_bytes_range.
  - unfold supported, pack in *.
    destruct (size =? 8), (size =? 16), (size =? 32), (size =? 64); done.
Qed.

Lemma operand_make_bytes o size f :
  operand_make o size = Ok (Some f) → Forall is_byte f.
Proof.
  destruct o as [r|[r| | |v|]| |v|nm]; cbn [operand_make]; try done;
    try apply pack_bytes; intros H; unbind H as b Hb; inv_ok H;
    unfold pack8, struct_pack in Hb; (destruct (_ && _); [|done]); inv_ok Hb;
    apply (le_bytes_range 1).
Qed.

Lemma ins_make_bytes n i i' :
  ins_make n i = Ok i' → class_of i ≠ CExit → Forall is_byte (bytes_of i').
Proof.
  unfold bytes_of.
  destruct i as [bc|bc|c d s size bc|c d size bc]; cbn [ins_make]; intros H Hc.
  - done.
  - inv_ok H. cbn [ins_bytecode]. by apply Forall_singleton.
  - unbind H as bc' Hmake. inv_ok H. cbn [ins_bytecode].
    apply BinOp_make_layout in Hmake as (mode & fd & fs & Hmode & Hd & Hs & ->).
    apply binop_mode_parts in Hmode as (_ & _ & _ & _ & _ & _ & _ & Hm & _).
    rewrite !Forall_app. split; [|split; by eapply operand_make_bytes].
    apply Forall_cons. split; [unfold is_byte; by destruct c|].
    by apply Forall_singleton.
  - unbind H as bc' Hmake. inv_ok H. cbn [ins_bytecode].
    apply UnOp_make_layout in Hmake as (mode & fd & Hmode & Hd & ->).
    rewrite !Forall_app. split; [|by eapply operand_make_bytes].
    assert (is_byte mode) as Hm.
    { pose proof Hmode as Hmode'. unfold unop_mode in Hmode'.
      destruct (unop_mode_code d) eqn:Hcode; [|done].
      unbind Hmode' as cls Hcls. inv_ok Hmode'.
      apply unop_mode_code_values in Hcode. apply size2modifier_values in Hcls.
      unfold is_byte.
      repeat (apply elem_of_cons in Hcode as [->|Hcode]);
        [..|by apply elem_of_nil in Hcode];
        (repeat (apply elem_of_cons in Hcls as [->|Hcls]);
           [..|by apply elem_of_nil in Hcls]); done. }
    apply Forall_cons. split; [unfold is_byte; by destruct c|].
    by apply Forall_singleton.
Qed.

Lemma rewrite_use_bytes r inses u inses' :
  Forall (λ i, Forall is_byte (bytes_of i)) inses →
  rewrite_use r inses u = Ok inses' →
  Forall (λ i, Forall is_byte (bytes_of i)) inses'.
Proof.
  intros Hall H. unfold rewrite_use in H. unbind H as off Hoff.
  destruct (inses !! u) as [i|]; [|done]. unbind H as R HR.
  destruct i as [bc|bc|c d s size bc|c d size bc]; try done;
    unbind H as i' Hi'; inv_ok H; apply Forall_insert; try done;
    by eapply ins_make_bytes.
Qed.

Lemma exec_fresh st s st' :
  Forall fresh (inses st) → exec st s = Ok st' → Forall fresh (inses st').
Proof.
  intros Hall H. destruct s as [nm|c m x y|c m x| | |l]; cbn [exec] in H.
  - by inv_ok H.
  - unbind H as r1 H1. destruct r1 as [st1 x']. unbind H as r2 H2.
    destruct r2 as [st2 y']. inv_ok H.
    apply eval_frame in H1 as [H1 _], H2 as [H2 _]. cbn [binop_ins inses].
    rewrite H2, H1. apply Forall_app. split; [done|]. by repeat constructor.
  - unbind H as r1 H1. destruct r1 as [st1 x']. apply eval_frame in H1 as [H1 _].
    unfold uop_ins in H. destruct (UOPS.class c); [|done]. inv_ok H.
    cbn [inses]. rewrite H1. apply Forall_app. split; [done|]. by repeat constructor.
  - inv_ok H. cbn [exit inses]. apply Forall_app. split; [done|].
    by repeat constructor.
  - inv_ok H. cbn [ret inses]. apply Forall_app. split; [done|].
    by repeat constructor.
  - unfold tag in H. destruct (store st !! l); [|done]. by inv_ok H.
Qed.

Lemma build_fresh p st :
  build p empty_session = Ok st → Forall fresh (inses st).
Proof.
  intros H. eapply (foldM_invariant exec (λ st, Forall fresh (inses st)));
    [|  |exact H]; [apply exec_fresh|constructor].
Qed.

Lemma make_all_bytes n l l' :
  Forall2 (λ x y, ins_make n x = Ok y) l l' → Forall fresh l →
  Forall (λ i, Forall is_byte (bytes_of i)) l'.
Proof.
  induction 1 as [|i i' l1 l2 Hi _ IH]; intros Hfresh; [constructor|].
  apply Forall_cons in Hfresh as [Hf Hfresh]. constructor; [|by apply IH].
  destruct i as [b| | |]; [|by eapply ins_make_bytes..].
  simpl in Hi, Hf. inv_ok Hi. by apply Forall_singleton.
Qed.

(** X15 — the buffer [assemble()] returns for a client program is a
    byte string: every element lies in [0, 255], so no [bytes([...])],
    [struct.pack] or mode-byte computation can produce a value out of
    range on any stream that assembles. *)
Theorem output_is_bytes p st st3 out :
  build p empty_session = Ok st →
  assemble st = Ok (st3, out) →
  Forall is_byte out.
Proof.
  intros Hbuild Hasm. pose proof (assemble_out _ _ _ Hasm) as ->.
  apply Forall_concat, Forall_fmap.
  pose proof (build_fresh _ _ Hbuild) as Hfresh.
  unfold assemble in Hasm. unbind Hasm as st1 H1. unbind Hasm as st2 H2.
  unbind Hasm as st3' H3. unbind Hasm as bc H4. inv_ok Hasm.
  assert (Forall (λ i, Forall is_byte (bytes_of i)) (inses st1)) as Hb1.
  { unfold phase1 in H1. unbind H1 as l Hl. inv_ok H1. cbn [inses].
    apply mapM_ok_Forall2 in Hl. by eapply make_all_bytes. }
  unfold phase2 in H2. unbind H2 as S2 HS2. inv_ok H2.
  unfold phase3 in H3. unbind H3 as l3 Hl3. inv_ok H3. cbn [inses store labels] in *.
  eapply (foldM_invariant (rewrite_at S2)); [|exact Hb1|exact Hl3].
  intros s l s' Hs Hstep. unfold rewrite_at, Label_rewrite in Hstep.
  destruct (S2 !! l) as [lab|]; [|done].
  eapply (foldM_invariant (rewrite_use (resolved lab))); [|exact Hs|exact Hstep].
  intros ? ? ? ? ?. by eapply rewrite_use_bytes.
Qed.

Lemma output_is_bytes_witness :
  Forall is_byte
    [19; 23; 11; 1; 69; 0; 1; 0; 0; 0; 0; 0; 0; 0;
     1; 69; 1; 2; 0; 0; 0; 0; 0; 0; 0].
Proof.
  apply (output_is_bytes (scenario_first 8) _ _ _ eq_refl eq_refl).
Defined.

(** ** What the builder calls record *)

(** X16 — what any sequence of builder calls, in any order, leaves in
    a session before [assemble()] runs: no instruction is encoded and
    no label is resolved; a use site recorded by [ref] is the stream
    length at the time of the call, so it is at most the current
    stream length (the index of the instruction emitted next, whatever
    it is, or the end of the stream); a label is in the label table
    exactly when [tag] has set its definition site, which is never past
    the end of the stream. *)
Theorem builder_records st :
  reachable st →
  Forall fresh (inses st)
  ∧ ∀ l lab, store st !! l = Some lab →
      resolved lab = None
      ∧ (∀ u, u ∈ use_sites lab → (u ≤ length (inses st))%nat)
      ∧ (l ∈ labels st ↔ is_Some (def_site lab))
      ∧ (∀ d, def_site lab = Some d → (d ≤ length (inses st))%nat).
Proof.
  intros Hreach. destruct (reachable_inv _ Hreach) as [H1 H2 H3 H4 H5].
  split; [done|]. intros l lab Hlab.
  split; [by eapply H3|]. split; [intros u Hu; by apply (H4 l lab u)|]. split; [split|].
  - intros Hl. destruct (H1 l Hl) as (lab' & d & Hlab' & Hd & _).
    simplify_eq. eauto.
  - by eapply H2.
  - intros d Hd. destruct (H1 l) as (lab' & d' & Hlab' & Hd' & Hle).
    + eapply H2; eauto.
    + by simplify_eq.
Qed.

(** [L = Label('L'); ref(L); push(S, r2); tag(L)]: the use site 0 is
    the push, which holds no label reference. *)
Lemma builder_records_witness :
  let st := {| inses := [UnOp Push (Reg 2) 16 None];
               labels := [0%nat];
               store := [{| name := "L"; use_sites := [0%nat];
                            def_site := Some 1%nat; resolved := None |}] |} in
  Forall fresh (inses st)
  ∧ ∀ l lab, store st !! l = Some lab →
      resolved lab = None
      ∧ (∀ u, u ∈ use_sites lab → (u ≤ length (inses st))%nat)
      ∧ (l ∈ labels st ↔ is_Some (def_site lab))
      ∧ (∀ d, def_site lab = Some d → (d ≤ length (inses st))%nat).
Proof.
  intros st. apply (builder_records st).
  pose proof reach_empty as H.
  apply (reach_Label _ "L") in H.
  eapply (reach_ref _ 0%nat) in H; [|reflexivity].
  eapply (reach_uop _ UOPS.push 16 (Reg 2)) in H; [|reflexivity].
  eapply (reach_tag _ 0%nat) in H; [|reflexivity].
  exact H.
Defined.

(** X18 — in a client program, where every [ref(label)] is written as
    an operand of the emit call that uses it, the references are in
    place: every use site recorded by [ref] is the index of an
    instruction of the stream that holds a label reference, and every
    label reference held by an instruction is recorded as a use site
    of a label. *)
Theorem operand_refs_in_place p st :
  build p empty_session = Ok st →
  reachable st
  ∧ refs_in_place st
  ∧ (∀ l lab u, store st !! l = Some lab → u ∈ use_sites lab →
       ∃ i, inses st !! u = Some i ∧ (0 < ins_refs i)%nat)
  ∧ (∀ u i, inses st !! u = Some i → (0 < ins_refs i)%nat →
       ∃ l lab, store st !! l = Some lab ∧ u ∈ use_sites lab).
Proof.
  intros Hbuild. destruct (build_client _ _ Hbuild) as [Hreach Hplace].
  split; [done|]. split; [done|]. split.
  - intros l lab u Hlab Hu.
    assert (u ∈ sites (inses st)) as Hin.
    { unfold refs_in_place in Hplace. rewrite <- Hplace.
      apply all_uses_elem. eauto. }
    apply sites_of_lookup in Hin as (r & Hr & Hpos).
    rewrite list_lookup_fmap in Hr.
    destruct (inses st !! u) as [i|]; [|done]. simpl in Hr. inv_ok Hr. eauto.
  - intros u i Hi Hpos.
    assert (u ∈ sites (inses st)) as Hin.
    { apply sites_of_lookup. exists (ins_refs i).
      by rewrite list_lookup_fmap, Hi. }
    unfold refs_in_place in Hplace. rewrite <- Hplace in Hin.
    by apply all_uses_elem in Hin.
Qed.

Lemma operand_refs_in_place_witness :
  let st := {| inses := [UnOp Jmp (LabelRef "L") 8 None;
                         BinOp Mov (Reg 0) (Imm 1) 64 None;
                         BinOp Mov (Reg 1) (Imm 2) 64 None];
               labels := [0%nat];
               store := [{| name := "L"; use_sites := [0%nat];
                            def_site := Some 2%nat; resolved := None |}] |} in
  reachable st
  ∧ refs_in_place st
  ∧ (∀ l lab u, store st !! l = Some lab → u ∈ use_sites lab →
       ∃ i, inses st !! u = Some i ∧ (0 < ins_refs i)%nat)
  ∧ (∀ u i, inses st !! u = Some i → (0 < ins_refs i)%nat →
       ∃ l lab, store st !! l = Some lab ∧ u ∈ use_sites lab).
Proof. apply (operand_refs_in_place (scenario_first 8) _ eq_refl). Defined.

(** ** The example programs *)

(** X17 — [main_bubble] and [main_quicksort]: both programs build and
    assemble; the buffers written to [test_asm] and [payload] are 67 and
    140 bytes long; and every 8-bit jump or call displacement in them
    fits its field, so each decodes to exactly the distance to its
    label. *)
Theorem example_programs_assemble :
  match assemble_program main_bubble, assemble_program main_quicksort with
  | Ok (st_b, out_b), Ok (st_q, out_q) =>
      length out_b = 67%nat ∧ jumps_exact st_b = true
      ∧ length out_q = 140%nat ∧ jumps_exact st_q = true
  | _, _ => False
  end.
Proof. vm_compute. repeat split. Qed.
